(** * TSP solver: encoding of tours and the two GA runs (tsp_solver.py)

    A shallow embedding of [TSPProblem] and [TSPSolver].

    Conventions of the model.
    - City indices, permutation entries, [pop_size], [n_gen] and seeds are
      Python ints: [Z].
    - Distances are rationals [Q] with exact addition.  Every finite double
      is a rational, so the matrices of the program with finite entries are
      matrices of the model, and results on distances are stated up to
      [Qeq].  The rounding of each [+=] is not modelled there: where a
      statement depends on it, [_evaluate] is taken over binary64
      ([Binary64._evaluate], the same text over the doubles of the kernel).
      The doubles [inf] and [nan] are not rationals.
    - [l[i]] is Python indexing: a negative index counts from the end and an
      index outside [-len l, len l) raises IndexError.  In the pure part that
      is the only exception, so it is the [None] of [option].
    - The optimiser ([pymoo.optimize.minimize] with the objects handed to it)
      is not part of the repository: it is a parameter of the solver, and
      the statements on the solver quantify over every optimiser, some
      under a stated hypothesis on what it returns.  How the library draws
      its random numbers from the seed is not modelled.
    - Of visualize_results.py the report table, the search for the best
      result and the coordinate loop of the plots are embedded; the calls of
      matplotlib are not.  The loaders of tsp_solver.py take the lines of
      the file, with Python's splitting and parsing as parameters. *)

From stdpp Require Import base option list sorting gmap strings.
From Stdlib Require Import Ascii QArith Lia DecimalString Floats.

Open Scope Z_scope.

(** ** Python indexing *)

Module Py.

(** [l[i]] for a list or a one-dimensional array. *)
Definition index {A} (l : list A) (i : Z) : option A :=
  let n := Z.of_nat (length l) in
  if decide (0 <= i < n) then l !! Z.to_nat i
  else if decide (- n <= i < 0) then l !! Z.to_nat (n + i)
  else None.

(** [range(n)] *)
Definition range (n : Z) : list Z := seqZ 0 n.

(** [l[-1]] is used by the source on the mapped tour. *)
Definition last_index {A} (l : list A) : option A := index l (-1).

End Py.

(** ** TSPProblem *)

Definition matrix := list (list Q).

Record TSPProblem := {
  distance_matrix : matrix;
  n_cities : Z;
  start_city : Z;
  cities_to_visit : list Z;
  n_var : Z;
  n_obj : Z;
  xl : Z;
  xu : Z
}.

(** [TSPProblem.__init__]: the list comprehension keeps every index of
    [range(n_cities)] different from [start_city]; nothing is checked. *)
Definition TSPProblem_init (distance_matrix : matrix) (start_city : Z) : TSPProblem :=
  let n_cities := Z.of_nat (length distance_matrix) in
  let cities_to_visit := filter (λ i, i ≠ start_city) (Py.range n_cities) in
  {| distance_matrix := distance_matrix;
     n_cities := n_cities;
     start_city := start_city;
     cities_to_visit := cities_to_visit;
     n_var := Z.of_nat (length cities_to_visit);
     n_obj := 1;
     xl := 0;
     xu := Z.of_nat (length cities_to_visit) - 1 |}.

(** [D[a][b]] *)
Definition dist (D : matrix) (a b : Z) : option Q :=
  row ← Py.index D a; Py.index row b.

(** [[self.cities_to_visit[int(i)] for i in x]] *)
Definition mapped_tour (self : TSPProblem) (x : list Z) : option (list Z) :=
  mapM (Py.index (cities_to_visit self)) x.

(** One turn of the loop of [_evaluate]:
    [total_distance += D[tour[i]][tour[i + 1]]]. *)
Definition evaluate_step (D : matrix) (tour : list Z)
    (total_distance : option Q) (i : Z) : option Q :=
  acc ← total_distance;
  a ← Py.index tour i;
  b ← Py.index tour (i + 1);
  d ← dist D a b;
  Some (acc + d)%Q.

(** [TSPProblem._evaluate]; the value is what is stored in [out["F"]]. *)
Definition _evaluate (self : TSPProblem) (x : list Z) : option Q :=
  tour ← mapped_tour self x;
  let total_distance := 0%Q in
  t0 ← Py.index tour 0;
  d0 ← dist (distance_matrix self) (start_city self) t0;
  let total_distance := (total_distance + d0)%Q in
  total_distance ←
    foldl (evaluate_step (distance_matrix self) tour) (Some total_distance)
          (Py.range (Z.of_nat (length tour) - 1));
  tl ← Py.last_index tour;
  dl ← dist (distance_matrix self) tl (start_city self);
  Some (total_distance + dl)%Q.

(** [[start_city] + best_tour + [start_city]], with [best_tour] mapped from
    the permutation as in [_evaluate]. *)
Definition complete_tour (problem : TSPProblem) (start_city : Z)
    (best_perm : list Z) : option (list Z) :=
  best_tour ← mapped_tour problem best_perm;
  Some ([start_city] ++ best_tour ++ [start_city]).

(** ** The evaluation over other numbers

    [_evaluate] adds the entries of the matrix with the [+] of their type.
    [evaluate_in zero add] is the text of [_evaluate], with the list
    comprehension of the constructor in it, over numbers with the zero
    [zero] and the addition [add]: with the rationals it is [_evaluate],
    with binary64 it is the arithmetic of the program. *)

Section numbers.
Context {R : Type} (zero : R) (add : R → R → R).

(** [D[a][b]] *)
Definition dist_in (D : list (list R)) (a b : Z) : option R :=
  row ← Py.index D a; Py.index row b.

(** [total_distance += D[tour[i]][tour[i + 1]]] *)
Definition evaluate_step_in (D : list (list R)) (tour : list Z)
    (total_distance : option R) (i : Z) : option R :=
  acc ← total_distance;
  a ← Py.index tour i;
  b ← Py.index tour (i + 1);
  d ← dist_in D a b;
  Some (add acc d).

Definition evaluate_in (D : list (list R)) (start_city : Z) (x : list Z)
    : option R :=
  let cities_to_visit :=
    filter (λ i, i ≠ start_city) (Py.range (Z.of_nat (length D))) in
  tour ← mapM (Py.index cities_to_visit) x;
  let total_distance := zero in
  t0 ← Py.index tour 0;
  d0 ← dist_in D start_city t0;
  let total_distance := add total_distance d0 in
  total_distance ←
    foldl (evaluate_step_in D tour) (Some total_distance)
          (Py.range (Z.of_nat (length tour) - 1));
  tl ← Py.last_index tour;
  dl ← dist_in D tl start_city;
  Some (add total_distance dl).

(** The entries that [_evaluate] adds, in the order in which it adds them:
    [D[s][c_0]], then [D[c_k][c_{k+1}]] for each k, then [D[c_last][s]]. *)
Definition addends_in (D : list (list R)) (start_city : Z) (x : list Z)
    : option (list R) :=
  let cities_to_visit :=
    filter (λ i, i ≠ start_city) (Py.range (Z.of_nat (length D))) in
  tour ← mapM (Py.index cities_to_visit) x;
  _ ← head tour;
  mapM (λ ab, dist_in D ab.1 ab.2)
       (zip (start_city :: tour) (tour ++ [start_city])).

End numbers.

(** ** The evaluation on binary64

    The matrix of the program is a numpy array of doubles and
    [total_distance] is a Python float: each [+=] rounds to the nearest
    double, ties to even. *)

Module Binary64.

Definition matrix := list (list float).

(** [TSPProblem._evaluate] of the problem built from [D] and
    [start_city]. *)
Definition _evaluate : matrix → Z → list Z → option float :=
  evaluate_in 0%float PrimFloat.add.

Definition addends : matrix → Z → list Z → option (list float) :=
  addends_in.

(** [0 <= d] for every entry [d]; [nan] is not such an entry. *)
Definition nonneg (D : matrix) : Prop :=
  Forall (Forall (λ d, PrimFloat.leb 0 d = true)) D.

(** [D[i][j]] and [D[j][i]] are the same double, or both raise. *)
Definition symmetric (D : matrix) : Prop :=
  ∀ i j, dist_in D i j = dist_in D j i.

(** The doubles nearest to 0.1, 0.2 and 0.3. *)
Definition d01 : float := 0x1.999999999999ap-4%float.
Definition d02 : float := 0x1.999999999999ap-3%float.
Definition d03 : float := 0x1.3333333333333p-2%float.

(** [[[0, .1, .2], [.1, 0, .3], [.2, .3, 0]]] *)
Definition D3 : matrix :=
  [[0%float; d01; d02]; [d01; 0%float; d03]; [d02; d03; 0%float]].

(** [result['distance'] < best_distance] on doubles, as the search for
    the best result of visualize_results.py compares them. *)
Definition better (d best_distance : float) : bool :=
  PrimFloat.ltb d best_distance.

End Binary64.

(** [0 <= x] on the specification of a double. *)
Definition sf_nonneg (x : spec_float) : Prop :=
  SFleb (S754_zero false) x = true.

(** ** The closed-tour length, as the specification words it *)

(** Addition of two lengths, either of which may be undefined. *)
Definition oadd (a b : option Q) : option Q :=
  x ← a; y ← b; Some (x + y)%Q.

(** Sum of [D[c_k][c_{k+1}]] over the consecutive pairs of [cs]. *)
Fixpoint legs (D : matrix) (cs : list Z) : option Q :=
  match cs with
  | a :: rest =>
      match rest with
      | b :: _ => oadd (dist D a b) (legs D rest)
      | [] => Some 0%Q
      end
  | [] => Some 0%Q
  end.

(** [D[s][c_0] + sum_k D[c_k][c_{k+1}] + D[c_last][s]]: the length of the
    closed tour from [s] through [cs] and back, undefined when there is no
    first city or when an entry of the matrix is missing. *)
Definition closed_tour_length (D : matrix) (s : Z) (cs : list Z) : option Q :=
  c0 ← head cs;
  cl ← last cs;
  oadd (oadd (dist D s c0) (legs D cs)) (dist D cl s).

(** Equality of two outcomes of the pure part: both raise, or both give
    the same rational. *)
Definition opt_Qeq : relation (option Q) := option_Forall2 Qeq.

(** ** Properties of inputs *)

(** An N x N matrix. *)
Definition square (D : matrix) : Prop :=
  Forall (λ row, length row = length D) D.

(** Every entry is non-negative. *)
Definition nonneg (D : matrix) : Prop :=
  Forall (Forall (λ d, (0 <= d)%Q)) D.

(** [D[i][j] = D[j][i]] for all i and j, as Python expressions: both sides
    raise or both are the same number. *)
Definition symmetric (D : matrix) : Prop :=
  ∀ i j, opt_Qeq (dist D i j) (dist D j i).

(** [x] is a bijection over [0 .. n-1]. *)
Definition is_permutation (n : Z) (x : list Z) : Prop :=
  x ≡ₚ seqZ 0 n.

(** ** Exceptions, clock and standard output *)

Inductive exn :=
  | IndexError
  | TypeError                      (* iterating or subscripting [None] *)
  | LibraryError (name : string).  (* raised inside the optimiser *)

(** A printed line.  Lines printed from a literal are kept as text; a line
    that formats a number keeps the number (the formatting is not modelled). *)
Inductive line :=
  | Text (s : string)
  | StartingCity (id : Z)
  | PopulationSize (pop_size n_gen : Z)
  | BestDistance (d : Q)
  | ExecutionTime (t : Q)
  | TourIDs (ids : list Z).

(** What a run can observe and change outside its arguments: [clock k] is
    the value of the k-th call of [time.time()], [ticks] counts the calls
    made so far, [stdout] is what has been printed, oldest line first. *)
Record world := {
  clock : nat → Q;
  ticks : nat;
  stdout : list line
}.

Definition M (A : Type) : Type := world → (exn + A) * world.

#[global] Instance M_ret : MRet M := λ A (a : A) w, (inr a, w).

#[global] Instance M_bind : MBind M := λ A B (f : A → M B) (m : M A) w,
  match m w with
  | (inl e, w') => (inl e, w')
  | (inr a, w') => f a w'
  end.

Definition raise {A} (e : exn) : M A := λ w, (inl e, w).

Definition print (l : line) : M unit := λ w,
  (inr (), {| clock := clock w; ticks := ticks w; stdout := stdout w ++ [l] |}).

Definition time_time : M Q := λ w,
  (inr (clock w (ticks w)),
   {| clock := clock w; ticks := S (ticks w); stdout := stdout w |}).

(** An indexing expression inside a method: [None] is IndexError. *)
Definition indexing {A} (o : option A) : M A :=
  match o with Some a => mret a | None => raise IndexError end.

(** Iterating over, or subscripting, a value that may be [None]: on
    [None] that is TypeError. *)
Definition not_none {A} (o : option A) : M A :=
  match o with Some a => mret a | None => raise TypeError end.

(** A call into the library: its exception, if any, propagates. *)
Definition library {A} (r : exn + A) : M A :=
  match r with inl e => raise e | inr a => mret a end.

(** ** The objects handed to the optimiser

    The constructors of pymoo are records of their arguments; an operator
    built without [prob] has [None] there (the library's default). *)

Inductive Sampling := PermutationRandomSampling.
Inductive Crossover := OrderCrossover (prob : option Q).
Inductive Mutation := InversionMutation (prob : option Q).

Record GA := {
  pop_size : Z;
  sampling : Sampling;
  crossover : Crossover;
  mutation : Mutation;
  eliminate_duplicates : bool
}.

Inductive Termination := get_termination (name : string) (n : Z).

(** [res.X] and [res.F] of the object returned by [minimize]: arrays, or
    [None] when the library has no solution to return. *)
Record Result := { X : option (list Z); F : option (list Q) }.

(** [minimize(problem, algorithm, termination, seed=..., verbose=...)]:
    the answer of a call, for the arguments of that call.  The statements
    quantify over every optimiser; none derives anything from the way the
    library uses its seed. *)
Definition Minimize : Type :=
  TSPProblem → GA → Termination → Z → bool → exn + Result.

(** ** TSPSolver *)

(** The dict returned by a run; its keys are the fields. *)
Record RunResult := {
  r_algorithm : string;
  r_start_city : Z;
  r_tour : list Z;
  r_distance : Q;
  r_execution_time : Q;
  r_generations : Z
}.

Record TSPSolver := {
  city_coords : gmap Z (Q * Q);
  solver_distance_matrix : matrix;
  solver_n_cities : Z;
  results : gmap Z (gmap string RunResult)
}.

Definition TSPSolver_init (city_coords : gmap Z (Q * Q))
    (distance_matrix : matrix) : TSPSolver :=
  {| city_coords := city_coords;
     solver_distance_matrix := distance_matrix;
     solver_n_cities := Z.of_nat (length distance_matrix);
     results := ∅ |}.

(** ['=' * 60] *)
Definition rule : string :=
  "============================================================".

Definition newline : string := String "010"%char EmptyString.

Section solver.
Variable minimize : Minimize.

Definition solve_with_genetic_algorithm (self : TSPSolver)
    (start_city pop_size n_gen : Z) : M RunResult :=
  print (Text (newline +:+ rule));;
  print (Text "Solving TSP with Genetic Algorithm (GA)");;
  print (StartingCity (start_city + 1));;
  print (PopulationSize pop_size n_gen);;
  print (Text rule);;
  let problem := TSPProblem_init (solver_distance_matrix self) start_city in
  let algorithm :=
    {| pop_size := pop_size;
       sampling := PermutationRandomSampling;
       crossover := OrderCrossover None;
       mutation := InversionMutation None;
       eliminate_duplicates := true |} in
  let termination := get_termination "n_gen" n_gen in
  start_time ← time_time;
  res ← library (minimize problem algorithm termination 42 false);
  end_time ← time_time;
  let best_perm := X res in
  best_perm ← not_none best_perm;
  tour ← indexing (complete_tour problem start_city best_perm);
  fitness ← not_none (F res);
  distance ← indexing (Py.index fitness 0);
  let result :=
    {| r_algorithm := "Genetic Algorithm (GA)";
       r_start_city := start_city;
       r_tour := tour;
       r_distance := distance;
       r_execution_time := (end_time - start_time)%Q;
       r_generations := n_gen |} in
  print (Text (newline +:+ "Results:"));;
  print (BestDistance (r_distance result));;
  print (ExecutionTime (r_execution_time result));;
  print (TourIDs ((λ c, c + 1) <$> tour));;
  mret result.

Definition solve_with_modified_ga (self : TSPSolver)
    (start_city pop_size n_gen : Z) : M RunResult :=
  print (Text (newline +:+ rule));;
  print (Text "Solving TSP with Modified Genetic Algorithm (GA-2)");;
  print (StartingCity (start_city + 1));;
  print (PopulationSize pop_size n_gen);;
  print (Text rule);;
  let problem := TSPProblem_init (solver_distance_matrix self) start_city in
  let algorithm :=
    {| pop_size := pop_size;
       sampling := PermutationRandomSampling;
       crossover := OrderCrossover (Some 0.95%Q);
       mutation := InversionMutation (Some 0.2%Q);
       eliminate_duplicates := true |} in
  let termination := get_termination "n_gen" n_gen in
  start_time ← time_time;
  res ← library (minimize problem algorithm termination 123 false);
  end_time ← time_time;
  let best_perm := X res in
  best_perm ← not_none best_perm;
  tour ← indexing (complete_tour problem start_city best_perm);
  fitness ← not_none (F res);
  distance ← indexing (Py.index fitness 0);
  let result :=
    {| r_algorithm := "Modified Genetic Algorithm (GA-2)";
       r_start_city := start_city;
       r_tour := tour;
       r_distance := distance;
       r_execution_time := (end_time - start_time)%Q;
       r_generations := n_gen |} in
  print (Text (newline +:+ "Results:"));;
  print (BestDistance (r_distance result));;
  print (ExecutionTime (r_execution_time result));;
  print (TourIDs ((λ c, c + 1) <$> tour));;
  mret result.

(** The body of the loop of [compare_algorithms]. *)
Definition compare_step (self : TSPSolver) (pop_size n_gen : Z)
    (results : gmap Z (gmap string RunResult)) (start_city : Z)
    : M (gmap Z (gmap string RunResult)) :=
  let results := <[start_city := ∅]> results in
  ga_result ← solve_with_genetic_algorithm self start_city pop_size n_gen;
  let results := alter (insert "GA" ga_result) start_city results in
  ga2_result ← solve_with_modified_ga self start_city pop_size n_gen;
  let results := alter (insert "GA2" ga2_result) start_city results in
  mret results.

Fixpoint compare_loop (self : TSPSolver) (pop_size n_gen : Z)
    (start_cities : list Z) (results : gmap Z (gmap string RunResult))
    : M (gmap Z (gmap string RunResult)) :=
  match start_cities with
  | [] => mret results
  | start_city :: rest =>
      results ← compare_step self pop_size n_gen results start_city;
      compare_loop self pop_size n_gen rest results
  end.

(** [compare_algorithms] returns the results; the solver it leaves behind
    has them in [self.results]. *)
Definition compare_algorithms (self : TSPSolver) (start_cities : list Z)
    (pop_size n_gen : Z)
    : M (TSPSolver * gmap Z (gmap string RunResult)) :=
  results ← compare_loop self pop_size n_gen start_cities ∅;
  let self :=
    {| city_coords := city_coords self;
       solver_distance_matrix := solver_distance_matrix self;
       solver_n_cities := solver_n_cities self;
       results := results |} in
  mret (self, results).

End solver.

(** ** Notions used in the statements *)

(** [c_k = cities_to_visit[x[k]]] for an index known to be in range. *)
Definition city_at (self : TSPProblem) (i : Z) : Z :=
  default 0 (cities_to_visit self !! Z.to_nat i).

(** Symmetry checked on the entries of a square matrix. *)
Definition symmetric_entries (D : matrix) : Prop :=
  Forall (λ i, Forall (λ j, opt_Qeq (dist D i j) (dist D j i))
                 (seqZ 0 (Z.of_nat (length D))))
         (seqZ 0 (Z.of_nat (length D))).

(** ** Example inputs *)

(** A symmetric 3 x 3 matrix. *)
Definition D3 : matrix := [[0; 2; 9]; [2; 0; 6]; [9; 6; 0]]%Q.

(** ** One engine with four parameters, as the specification words it

    The two runs are instances of one algorithm that differ only in the
    crossover probability, the mutation probability, the random seed and the
    label of the result. *)
Definition parameterized_solve (minimize : Minimize)
    (crossover_prob mutation_prob : option Q) (seed : Z) (label : string)
    (self : TSPSolver) (start_city pop_size n_gen : Z) : M RunResult :=
  print (Text (newline +:+ rule));;
  print (Text ("Solving TSP with " +:+ label));;
  print (StartingCity (start_city + 1));;
  print (PopulationSize pop_size n_gen);;
  print (Text rule);;
  let problem := TSPProblem_init (solver_distance_matrix self) start_city in
  let algorithm :=
    {| pop_size := pop_size;
       sampling := PermutationRandomSampling;
       crossover := OrderCrossover crossover_prob;
       mutation := InversionMutation mutation_prob;
       eliminate_duplicates := true |} in
  let termination := get_termination "n_gen" n_gen in
  start_time ← time_time;
  res ← library (minimize problem algorithm termination seed false);
  end_time ← time_time;
  best_perm ← not_none (X res);
  tour ← indexing (complete_tour problem start_city best_perm);
  fitness ← not_none (F res);
  distance ← indexing (Py.index fitness 0);
  let result :=
    {| r_algorithm := label;
       r_start_city := start_city;
       r_tour := tour;
       r_distance := distance;
       r_execution_time := (end_time - start_time)%Q;
       r_generations := n_gen |} in
  print (Text (newline +:+ "Results:"));;
  print (BestDistance distance);;
  print (ExecutionTime (end_time - start_time)%Q);;
  print (TourIDs ((λ c, c + 1) <$> tour));;
  mret result.

(** The algorithm object of a run. *)
Definition algorithm_of (pop_size : Z) (crossover_prob mutation_prob : option Q)
    : GA :=
  {| pop_size := pop_size;
     sampling := PermutationRandomSampling;
     crossover := OrderCrossover crossover_prob;
     mutation := InversionMutation mutation_prob;
     eliminate_duplicates := true |}.

(** What a run reports apart from its timing: the exception, or the tour,
    the distance and the generation count. *)
Definition report (r : (exn + RunResult) * world) : exn + (list Z * Q * Z) :=
  match fst r with
  | inl e => inl e
  | inr res => inr (r_tour res, r_distance res, r_generations res)
  end.

(** The world of a run when the optimiser is entered: the banner has been
    printed and the clock read once. *)
Definition entering (label : string) (start_city pop_size n_gen : Z)
    (w : world) : world :=
  {| clock := clock w;
     ticks := S (ticks w);
     stdout := stdout w ++
       [Text (newline +:+ rule); Text ("Solving TSP with " +:+ label);
        StartingCity (start_city + 1); PopulationSize pop_size n_gen;
        Text rule] |}.

(** ** What is assumed of the optimiser, and two optimisers to run with *)

(** The optimiser returns a permutation of [0 .. n_var-1] together with the
    fitness that the problem's [_evaluate] gives it. *)
Definition returns_evaluated_permutation (minimize : Minimize) : Prop :=
  ∀ problem algorithm termination seed verbose res,
    minimize problem algorithm termination seed verbose = inr res →
    ∃ x f, X res = Some x ∧ F res = Some [f] ∧
           is_permutation (n_var problem) x ∧ _evaluate problem x = Some f.

(** The optimiser returns a permutation of [0 .. n_var-1]; nothing is
    assumed of the fitness it returns with it. *)
Definition returns_permutation (minimize : Minimize) : Prop :=
  ∀ problem algorithm termination seed verbose res,
    minimize problem algorithm termination seed verbose = inr res →
    ∃ x, X res = Some x ∧ is_permutation (n_var problem) x.

(** The least an optimiser can do: evaluate the identity permutation (an
    exception of [_evaluate] propagates) and return it.  It is not the
    optimiser of the library; it shows that the hypotheses made of an
    optimiser can be met. *)
Definition identity_optimiser : Minimize := λ problem _ _ _ _,
  let x := seqZ 0 (n_var problem) in
  match _evaluate problem x with
  | Some f => inr {| X := Some x; F := Some [f] |}
  | None => inl IndexError
  end.

(** An optimiser that returns a permutation, the descending one, with a
    fitness that is not the value of [_evaluate]. *)
Definition descending_optimiser : Minimize := λ problem _ _ _ _,
  inr {| X := Some (reverse (seqZ 0 (n_var problem))); F := Some [0%Q] |}.

(** An optimiser that raises on the problems of one start city. *)
Definition failing_on (c : Z) : Minimize :=
  λ problem algorithm termination seed verbose,
  if decide (start_city problem = c) then inl (LibraryError "ValueError")
  else identity_optimiser problem algorithm termination seed verbose.

(** A world with an empty output whose clock reads 0, 1, 2, ... *)
Definition w0 : world :=
  {| clock := λ k, inject_Z (Z.of_nat k); ticks := 0; stdout := [] |}.

(** What the statements after the call of the optimiser make of its
    answer: TypeError on a [None], IndexError on an index out of range,
    and otherwise the result record. *)
Definition outcome_of (problem : TSPProblem) (label : string)
    (start_city n_gen : Z) (execution_time : Q) (res : Result)
    : exn + RunResult :=
  match X res with
  | None => inl TypeError
  | Some best_perm =>
      match complete_tour problem start_city best_perm with
      | None => inl IndexError
      | Some t =>
          match F res with
          | None => inl TypeError
          | Some fitness =>
              match Py.index fitness 0 with
              | None => inl IndexError
              | Some d =>
                  inr {| r_algorithm := label;
                         r_start_city := start_city;
                         r_tour := t;
                         r_distance := d;
                         r_execution_time := execution_time;
                         r_generations := n_gen |}
              end
          end
      end
  end.



(** The call returned and did not raise. *)
Definition is_inr {A B} (r : A + B) : Prop :=
  match r with inl _ => False | inr _ => True end.

(** ** Notions used in the further properties *)

(** The world a run leaves when it returns: two readings of the clock and
    nine printed lines. *)
Definition returning (label : string) (r : RunResult) (pop_size : Z)
    (w : world) : world :=
  {| clock := clock w;
     ticks := S (S (ticks w));
     stdout := stdout w ++
       [Text (newline +:+ rule); Text ("Solving TSP with " +:+ label);
        StartingCity (r_start_city r + 1);
        PopulationSize pop_size (r_generations r);
        Text rule;
        Text (newline +:+ "Results:");
        BestDistance (r_distance r);
        ExecutionTime (r_execution_time r);
        TourIDs ((λ c, c + 1) <$> r_tour r)] |}.

(** The entry of a start city after its two runs. *)
Definition run_pair (c n_gen : Z) (entry : gmap string RunResult) : Prop :=
  ∃ ga ga2,
    entry = <["GA2" := ga2]> (<["GA" := ga]> ∅) ∧
    r_start_city ga = c ∧ r_start_city ga2 = c ∧
    r_algorithm ga = "Genetic Algorithm (GA)" ∧
    r_algorithm ga2 = "Modified Genetic Algorithm (GA-2)" ∧
    r_generations ga = n_gen ∧ r_generations ga2 = n_gen.

(** ** Reporting (visualize_results.py)

    A dict whose order of iteration matters is the list of its items in
    insertion order; its keys are pairwise different.  The plotting calls
    and the layout of the printed text are not modelled: a printed line
    keeps the values it formats. *)

Inductive key := IntKey (k : Z) | StrKey (k : string).

Inductive report_exn := KeyError (k : key).

#[global] Instance report_ret : MRet (sum report_exn) := λ A (a : A), inr a.

#[global] Instance report_bind : MBind (sum report_exn) :=
  λ A B (f : A → report_exn + B) (m : report_exn + A),
  match m with inl e => inl e | inr a => f a end.

(** [d[k]] on the items of a dict *)
Definition getitem {V} (d : list (Z * V)) (k : Z) : report_exn + V :=
  match list_find (λ kv, kv.1 = k) d with
  | Some (_, (_, v)) => inr v
  | None => inl (KeyError (IntKey k))
  end.

(** [entry[algo]] *)
Definition getalgo (entry : gmap string RunResult) (algo : string)
    : report_exn + RunResult :=
  match entry !! algo with
  | Some r => inr r
  | None => inl (KeyError (StrKey algo))
  end.

(** A [for] loop whose body may raise. *)
Fixpoint for_each {A B} (body : B → A → report_exn + B) (l : list A) (b : B)
    : report_exn + B :=
  match l with
  | [] => inr b
  | a :: l => b ← body b a; for_each body l b
  end.

(** [result['distance'] < best_distance] for a finite distance, where
    [None] is [float('inf')]: every finite double is below it
    ([Binary64.better d infinity], see [below_infinity]), and two finite
    doubles compare as the rationals they are.  The distances [inf] and
    [nan], for which the first comparison is False, are not in [Q]. *)
Definition better (d : Q) (best_distance : option Q) : bool :=
  match best_distance with
  | None => true
  | Some b => if Qlt_le_dec d b then true else false
  end.

(** The search for the best result at the end of [print_results_table]
    (the same loop is in [main] of run_tsp_project.py): the state is
    [(best_distance, best_config)]. *)
Definition best_step (results : list (Z * gmap string RunResult))
    (start_city : Z)
    (st : option Q * option (Z * string * RunResult)) (algo : string)
    : report_exn + (option Q * option (Z * string * RunResult)) :=
  entry ← getitem results start_city;
  result ← getalgo entry algo;
  if better (r_distance result) st.1
  then mret (Some (r_distance result), Some (start_city, algo, result))
  else mret st.

Definition find_best (results : list (Z * gmap string RunResult))
    : report_exn + (option Q * option (Z * string * RunResult)) :=
  for_each (λ st start_city,
              for_each (best_step results start_city) ["GA"; "GA2"] st)
    (fst <$> results) (None, None).

(** A line of the report. *)
Inductive report_line :=
  | Plain (s : string)
  | Row (start_id : Z) (algo : string) (distance time : Q) (tour_ids : list Z)
  | BestHeader
  | BestAlgorithm (algo : string)
  | BestStartingCity (start_id : Z)
  | BestDistanceOf (d : Q)
  | BestExecutionTime (t : Q)
  | BestTour (tour_ids : list Z).

(** Printing with exceptions: the state is what has been printed. *)
Definition P (A : Type) : Type :=
  list report_line → (report_exn + A) * list report_line.

#[global] Instance P_ret : MRet P := λ A (a : A) out, (inr a, out).

#[global] Instance P_bind : MBind P := λ A B (f : A → P B) (m : P A) out,
  match m out with
  | (inl e, out') => (inl e, out')
  | (inr a, out') => f a out'
  end.

Definition say (l : report_line) : P unit := λ out, (inr (), out ++ [l]).

(** An expression that may raise, inside a printing function. *)
Definition evaluating {A} (r : report_exn + A) : P A := λ out, (r, out).

Fixpoint for_p {A} (body : A → P unit) (l : list A) : P unit :=
  match l with
  | [] => mret ()
  | a :: l => body a;; for_p body l
  end.

(** ['=' * 80] and ['-' * 80] *)
Definition rule80 : string :=
  "================================================================================".

Definition dashes80 : string :=
  "--------------------------------------------------------------------------------".

(** [print_results_table]: the keys of the table are sorted, those of the
    search for the best result are in insertion order; the tour column
    shows the first six cities. *)
Definition print_results_table (results : list (Z * gmap string RunResult))
    : P unit :=
  say (Plain (newline +:+ rule80));;
  say (Plain "DETAILED RESULTS TABLE");;
  say (Plain (rule80 +:+ newline));;
  say (Plain "Start City   Algorithm Distance     Time (s)     Best Tour");;
  say (Plain dashes80);;
  for_p (λ start_city,
           for_p (λ algo,
                    entry ← evaluating (getitem results start_city);
                    result ← evaluating (getalgo entry algo);
                    say (Row (start_city + 1) algo (r_distance result)
                           (r_execution_time result)
                           ((λ c, c + 1) <$> take 6 (r_tour result))))
             ["GA"; "GA2"])
    (merge_sort Z.le (fst <$> results));;
  say (Plain rule80);;
  best ← evaluating (find_best results);
  match best.2 with
  | Some (start, algo, result) =>
      say BestHeader;;
      say (BestAlgorithm algo);;
      say (BestStartingCity (start + 1));;
      say (BestDistanceOf (r_distance result));;
      say (BestExecutionTime (r_execution_time result));;
      say (BestTour ((λ c, c + 1) <$> r_tour result));;
      say (Plain (newline +:+ rule80 +:+ newline))
  | None => mret ()
  end.

(** The body of the first loop of [plot_tour] (and of [plot_comparison]):
    the city id is the index plus one. *)
Definition coordinate_step (city_coords : gmap Z (Q * Q))
    (coords : list Q * list Q) (city_idx : Z)
    : report_exn + (list Q * list Q) :=
  let '(x_coords, y_coords) := coords in
  let city_id := city_idx + 1 in
  match city_coords !! city_id with
  | Some (x, y) => inr (x_coords ++ [x], y_coords ++ [y])
  | None => inl (KeyError (IntKey city_id))
  end.

(** The coordinates of the cities of a tour, as that loop collects them. *)
Definition tour_coordinates (city_coords : gmap Z (Q * Q)) (tour : list Z)
    : report_exn + (list Q * list Q) :=
  for_each (coordinate_step city_coords) tour ([], []).

(** The entries a search visits, in its order, when none is missing. *)
Definition entries (results : list (Z * gmap string RunResult))
    : list (Z * string * RunResult) :=
  '(c, entry) ← results;
  omap (λ algo, (λ r, (c, algo, r)) <$> entry !! algo) ["GA"; "GA2"].

(** The entry of every key holds a "GA" and a "GA2" result. *)
Definition complete (results : list (Z * gmap string RunResult)) : Prop :=
  Forall (λ kv, is_Some (kv.2 !! "GA") ∧ is_Some (kv.2 !! "GA2")) results.

(** The start ids of the rows among printed lines. *)
Definition row_ids (lines : list report_line) : list Z :=
  omap (λ l, match l with Row start_id _ _ _ _ => Some start_id | _ => None end)
       lines.

(** An example of results, inserted for start city 2 first. *)
Definition example_result (s : Z) (d : Q) : RunResult :=
  {| r_algorithm := "Genetic Algorithm (GA)"; r_start_city := s;
     r_tour := [s; 0; s]; r_distance := d; r_execution_time := 1;
     r_generations := 5 |}.

Definition example_results : list (Z * gmap string RunResult) :=
  [(2, <["GA2" := example_result 2 17]> (<["GA" := example_result 2 18]> ∅));
   (1, <["GA2" := example_result 1 20]> (<["GA" := example_result 1 17]> ∅))].

(** One step of the search on an entry that exists. *)
Definition keep_best (st : option Q * option (Z * string * RunResult))
    (e : Z * string * RunResult) : option Q * option (Z * string * RunResult) :=
  if better (r_distance e.2) st.1 then (Some (r_distance e.2), Some e) else st.

(** The body of the loop that prints the table, for one start city. *)
Definition table_rows_of (results : list (Z * gmap string RunResult))
    (start_city : Z) : P unit :=
  for_p (λ algo,
           entry ← evaluating (getitem results start_city);
           result ← evaluating (getalgo entry algo);
           say (Row (start_city + 1) algo (r_distance result)
                  (r_execution_time result)
                  ((λ c, c + 1) <$> take 6 (r_tour result))))
    ["GA"; "GA2"].

(** Coordinates for the ids 1, 2 and 3. *)
Definition coords3 : gmap Z (Q * Q) :=
  <[1 := (0, 0)%Q]> (<[2 := (1, 2)%Q]> (<[3 := (3, 1)%Q]> ∅)).

(** ** Loading the data (tsp_solver.py)

    Opening and reading the file, splitting a line and parsing a number
    are Python's and NumPy's: the loaders take the lines of the file, and
    [line.strip().split()], [int], [float] and [np.array] are parameters.
    [None] is ValueError, the one exception they raise. *)

Section loaders.
Variable tokens : string → list string.
Variable int_of : string → option Z.
Variable float_of : string → option Q.
Variable np_array : list (list Q) → option matrix.

(** The body of the loop of [load_city_data]. *)
Definition city_line (city_coords : gmap Z (Q * Q)) (line : string)
    : option (gmap Z (Q * Q)) :=
  match tokens line with
  | [p0; p1; p2] =>
      city_id ← int_of p0;
      x ← float_of p1;
      y ← float_of p2;
      Some (<[city_id := (x, y)]> city_coords)
  | _ => Some city_coords
  end.

Definition load_city_data (lines : list string) : option (gmap Z (Q * Q)) :=
  foldl (λ acc line, city_coords ← acc; city_line city_coords line)
        (Some ∅) lines.

(** The body of the loop of [load_distance_matrix]: an empty row is not
    appended. *)
Definition matrix_line (distances : list (list Q)) (line : string)
    : option (list (list Q)) :=
  row ← mapM float_of (tokens line);
  match row with
  | [] => Some distances
  | _ => Some (distances ++ [row])
  end.

Definition load_distance_matrix (lines : list string) : option matrix :=
  distances ← foldl (λ acc line, distances ← acc; matrix_line distances line)
                 (Some []) lines;
  np_array distances.

(** [line] is a line of three fields that parse to [id] and [xy]. *)
Definition city_record (line : string) (id : Z) (xy : Q * Q) : Prop :=
  ∃ p0 p1 p2, tokens line = [p0; p1; p2] ∧ int_of p0 = Some id ∧
              float_of p1 = Some xy.1 ∧ float_of p2 = Some xy.2.

(** [line] is a line of three fields one of which does not parse. *)
Definition bad_city_line (line : string) : Prop :=
  ∃ p0 p1 p2, tokens line = [p0; p1; p2] ∧
              (int_of p0 = None ∨ float_of p1 = None ∨ float_of p2 = None).

End loaders.

(** Parameters to run the loaders with: fields separated by spaces, and
    numbers written as decimal integers. *)
Fixpoint split_spaces (word : string) (s : string) : list string :=
  match s with
  | EmptyString => if decide (word = "") then [] else [word]
  | String c rest =>
      if decide (c = " "%char)
      then (if decide (word = "") then [] else [word]) ++ split_spaces "" rest
      else split_spaces (word +:+ String c "") rest
  end.

Definition decimal_int (s : string) : option Z :=
  Z.of_int <$> NilZero.int_of_string s.

Definition decimal_float (s : string) : option Q :=
  inject_Z <$> decimal_int s.

(** A city file: a comment line between the records, and city 1 twice. *)
Definition example_city_lines : list string :=
  ["1 0 0"; "# two more cities"; "2 3 4"; "1 5 6"].

(** ** From [compare_algorithms] to the report

    The dict that [compare_algorithms] builds, as its items in insertion
    order: a key stays where it was first inserted, so the keys are the
    start cities in the order of their first occurrence. *)
Fixpoint first_occurrences (l : list Z) : list Z :=
  match l with
  | [] => []
  | c :: l => c :: filter (λ c', c' ≠ c) (first_occurrences l)
  end.

Definition dict_items (start_cities : list Z)
    (rm : gmap Z (gmap string RunResult)) : list (Z * gmap string RunResult) :=
  omap (λ c, (λ entry, (c, entry)) <$> rm !! c) (first_occurrences start_cities).

(** ** Lemmas on Python indexing *)

Section index_facts.
Context {A : Type}.
Implicit Types (l : list A) (i : Z).

Lemma index_nonneg l i : 0 <= i → Py.index l i = l !! Z.to_nat i.
Proof.
  intros Hi. unfold Py.index.
  destruct (decide (0 <= i < Z.of_nat (length l))) as [|Hn]; [done|].
  rewrite decide_False by lia.
  symmetry. apply lookup_ge_None. lia.
Qed.

Lemma index_negative l i :
  - Z.of_nat (length l) <= i < 0 →
  Py.index l i = l !! Z.to_nat (Z.of_nat (length l) + i).
Proof.
  intros Hi. unfold Py.index.
  rewrite decide_False by lia. by rewrite decide_True by lia.
Qed.

Lemma index_is_Some l i :
  is_Some (Py.index l i) ↔ - Z.of_nat (length l) <= i < Z.of_nat (length l).
Proof.
  unfold Py.index.
  repeat case_decide; rewrite ?lookup_lt_is_Some; try lia.
  split; [intros [? [=]] | lia].
Qed.

Lemma index_None l i :
  Py.index l i = None ↔
  ¬ (- Z.of_nat (length l) <= i < Z.of_nat (length l)).
Proof. rewrite <- index_is_Some, eq_None_not_Some. done. Qed.

Lemma index_elem_of l i v : Py.index l i = Some v → v ∈ l.
Proof.
  unfold Py.index. repeat case_decide; try done;
    intros H'; by eapply list_elem_of_lookup_2.
Qed.

Lemma index_app_middle (pre : list A) a rest :
  Py.index (pre ++ a :: rest) (Z.of_nat (length pre)) = Some a.
Proof.
  rewrite index_nonneg by lia. rewrite Nat2Z.id.
  by rewrite list_lookup_middle.
Qed.

Lemma index_0_head l : Py.index l 0 = head l.
Proof. rewrite index_nonneg by lia. by destruct l. Qed.

Lemma last_index_last l : Py.last_index l = last l.
Proof.
  unfold Py.last_index. destruct l as [|a l] using rev_ind.
  - done.
  - rewrite last_snoc. rewrite index_negative by (rewrite length_app; simpl; lia).
    rewrite length_app. simpl.
    replace (Z.to_nat _) with (length l) by lia.
    by rewrite list_lookup_middle.
Qed.
End index_facts.

(** ** Arithmetic of possibly undefined lengths *)

#[local] Instance opt_Qeq_equiv : Equivalence opt_Qeq.
Proof. unfold opt_Qeq. apply _. Qed.

#[local] Instance oadd_proper : Proper (opt_Qeq ==> opt_Qeq ==> opt_Qeq) oadd.
Proof.
  intros a a' Ha b b' Hb.
  destruct Ha as [x x' Hx|]; [|constructor].
  destruct Hb as [y y' Hy|]; constructor.
  by rewrite Hx, Hy.
Qed.

Lemma oadd_comm a b : opt_Qeq (oadd a b) (oadd b a).
Proof. destruct a, b; constructor. apply Qplus_comm. Qed.

Lemma oadd_assoc a b c : opt_Qeq (oadd a (oadd b c)) (oadd (oadd a b) c).
Proof. destruct a, b, c; constructor. apply Qplus_assoc. Qed.

Lemma oadd_0_l a : opt_Qeq (oadd (Some 0%Q) a) a.
Proof. destruct a; constructor. apply Qplus_0_l. Qed.

Lemma oadd_0_r a : opt_Qeq (oadd a (Some 0%Q)) a.
Proof. destruct a; constructor. apply Qplus_0_r. Qed.

Lemma oadd_swap a m b : opt_Qeq (oadd (oadd a m) b) (oadd (oadd b m) a).
Proof. destruct a, m, b; constructor. ring. Qed.

Lemma oadd_Some a b v :
  oadd a b = Some v → ∃ x y, a = Some x ∧ b = Some y ∧ v = (x + y)%Q.
Proof. destruct a, b; simpl; intros [=]; eauto. Qed.

(** ** The loop of [_evaluate] sums the legs of the tour *)

Lemma foldl_evaluate_step_None D tour l :
  foldl (evaluate_step D tour) None l = None.
Proof. induction l; simpl; auto. Qed.

Lemma legs_cons2 D a b rest :
  legs D (a :: b :: rest) = oadd (dist D a b) (legs D (b :: rest)).
Proof. done. Qed.

Lemma evaluate_loop_legs D cs : ∀ pre acc,
  opt_Qeq
    (foldl (evaluate_step D (pre ++ cs)) (Some acc)
       (seqZ (Z.of_nat (length pre)) (Z.of_nat (length cs) - 1)))
    (oadd (Some acc) (legs D cs)).
Proof.
  induction cs as [|a [|b rest] IH]; intros pre acc.
  - simpl. constructor. by rewrite Qplus_0_r.
  - simpl. constructor. by rewrite Qplus_0_r.
  - replace (Z.of_nat (length (a :: b :: rest)) - 1)
      with (Z.succ (Z.of_nat (length rest))) by (simpl; lia).
    rewrite seqZ_cons by lia. rewrite Z.pred_succ.
    cbn [foldl]. rewrite legs_cons2.
    unfold evaluate_step at 2. cbn [mbind option_bind].
    rewrite index_app_middle. cbn [mbind option_bind].
    replace (pre ++ a :: b :: rest) with ((pre ++ [a]) ++ b :: rest)
      by (by rewrite <- app_assoc).
    replace (Z.of_nat (length pre) + 1) with (Z.of_nat (length (pre ++ [a])))
      by (rewrite length_app; simpl; lia).
    rewrite index_app_middle. cbn [mbind option_bind].
    destruct (dist D a b) as [d|] eqn:Hd; cbn [mbind option_bind].
    + replace (Z.succ (Z.of_nat (length pre)))
        with (Z.of_nat (length (pre ++ [a])))
        by (rewrite length_app; simpl; lia).
      replace (Z.of_nat (length rest))
        with (Z.of_nat (length (b :: rest)) - 1) by (simpl; lia).
      rewrite IH.
      change (Some (acc + d)%Q) with (oadd (Some acc) (Some d)).
      by rewrite oadd_assoc.
    + rewrite foldl_evaluate_step_None. constructor.
Qed.

Lemma evaluate_closed_tour_length self x :
  opt_Qeq (_evaluate self x)
    (cs ← mapped_tour self x;
     closed_tour_length (distance_matrix self) (start_city self) cs).
Proof.
  unfold _evaluate, closed_tour_length.
  destruct (mapped_tour self x) as [cs|]; cbn [mbind option_bind]; [|constructor].
  rewrite index_0_head, last_index_last.
  destruct (head cs) as [c0|]; cbn [mbind option_bind]; [|constructor].
  set (D := distance_matrix self). set (s := start_city self).
  destruct (dist D s c0) as [d0|]; cbn [mbind option_bind].
  2:{ destruct (last cs); constructor. }
  pose proof (evaluate_loop_legs D cs [] (0 + d0)%Q) as Hloop.
  simpl app in Hloop. change (Z.of_nat (length [])) with 0 in Hloop.
  unfold Py.range.
  destruct (foldl _ _ _) as [t|]; destruct (legs D cs) as [m|];
    inversion Hloop as [? ? Ht|]; subst; cbn [mbind option_bind].
  - destruct (last cs) as [cl|]; cbn [mbind option_bind]; [|constructor].
    destruct (dist D cl s) as [dl|]; constructor.
    rewrite Ht. by rewrite Qplus_0_l.
  - destruct (last cs); constructor.
Qed.

(** ** The list of cities to visit *)

Lemma filter_Forall_id {A} (P : A → Prop) `{∀ a, Decision (P a)} (l : list A) :
  Forall P l → filter P l = l.
Proof.
  induction 1 as [|a l Ha _ IH]; [done|].
  by rewrite filter_cons_True, IH.
Qed.

Lemma StronglySorted_seqZ m n : StronglySorted Z.lt (seqZ m n).
Proof.
  destruct (decide (n <= 0)) as [|Hn]; [rewrite seqZ_nil by done; constructor|].
  rewrite <- (Z2Nat.id n) by lia.
  induction (Z.to_nat n) as [|k IH]; [constructor|].
  rewrite seqZ_S. apply StronglySorted_app_2; [|done|repeat constructor].
  intros a b Ha Hb. apply elem_of_seqZ in Ha.
  apply list_elem_of_singleton in Hb. lia.
Qed.

Lemma elem_of_cities_to_visit D s c :
  c ∈ cities_to_visit (TSPProblem_init D s) ↔
  (0 <= c < Z.of_nat (length D)) ∧ c ≠ s.
Proof.
  simpl. unfold Py.range. rewrite list_elem_of_filter, elem_of_seqZ.
  intuition lia.
Qed.

Lemma cities_to_visit_valid D s :
  0 <= s < Z.of_nat (length D) →
  cities_to_visit (TSPProblem_init D s) =
  seqZ 0 s ++ seqZ (s + 1) (Z.of_nat (length D) - s - 1).
Proof.
  intros Hs. simpl. unfold Py.range.
  replace (Z.of_nat (length D)) with (s + (1 + (Z.of_nat (length D) - s - 1)))
    at 1 by lia.
  rewrite seqZ_app by lia. rewrite (seqZ_app _ 1) by lia.
  rewrite !filter_app. rewrite !Z.add_0_l.
  change (seqZ s 1) with [s].
  rewrite filter_cons_False by (intros ?; congruence). rewrite filter_nil.
  rewrite !filter_Forall_id; [done| |].
  - apply Forall_seqZ. intros; lia.
  - apply Forall_seqZ. intros; lia.
Qed.

Lemma cities_to_visit_invalid D s :
  s < 0 ∨ Z.of_nat (length D) <= s →
  cities_to_visit (TSPProblem_init D s) = seqZ 0 (Z.of_nat (length D)).
Proof.
  intros Hs. simpl. unfold Py.range.
  apply filter_Forall_id, Forall_seqZ. intros; lia.
Qed.

Lemma length_cities_to_visit_valid D s :
  0 <= s < Z.of_nat (length D) →
  Z.of_nat (length (cities_to_visit (TSPProblem_init D s))) =
  Z.of_nat (length D) - 1.
Proof.
  intros Hs. rewrite cities_to_visit_valid by done.
  rewrite length_app, !length_seqZ. lia.
Qed.

Lemma cities_to_visit_start_permutation D s :
  0 <= s < Z.of_nat (length D) →
  s :: cities_to_visit (TSPProblem_init D s) ≡ₚ seqZ 0 (Z.of_nat (length D)).
Proof.
  intros Hs. rewrite cities_to_visit_valid by done.
  replace (Z.of_nat (length D)) with (s + (1 + (Z.of_nat (length D) - s - 1)))
    at 2 by lia.
  rewrite seqZ_app by lia. rewrite (seqZ_app _ 1) by lia.
  rewrite !Z.add_0_l. change (seqZ s 1) with [s].
  by rewrite Permutation_middle.
Qed.

(** ** Mapping a permutation to cities *)

Lemma fmap_lookup_seqZ (l : list Z) :
  (λ i, default 0 (l !! Z.to_nat i)) <$> seqZ 0 (Z.of_nat (length l)) = l.
Proof.
  apply list_eq. intros k. rewrite list_lookup_fmap.
  destruct (decide (k < length l)%nat) as [Hk|Hk].
  - rewrite lookup_seqZ_lt by lia. simpl.
    rewrite Z.add_0_l, Nat2Z.id.
    destruct (lookup_lt_is_Some_2 l k Hk) as [v Hv]. by rewrite Hv.
  - rewrite lookup_seqZ_ge by lia. simpl.
    symmetry. apply lookup_ge_None. lia.
Qed.

Lemma mapped_tour_in_range self x :
  Forall (λ i, 0 <= i < Z.of_nat (length (cities_to_visit self))) x →
  mapped_tour self x = Some (city_at self <$> x).
Proof.
  intros Hx. unfold mapped_tour. apply mapM_Some_2.
  apply Forall2_fmap_r, Forall_Forall2_diag.
  eapply Forall_impl; [exact Hx|]. intros i Hi. simpl in *.
  rewrite index_nonneg by lia. unfold city_at.
  destruct (lookup_lt_is_Some_2 (cities_to_visit self) (Z.to_nat i)) as [v Hv];
    [lia|]. by rewrite Hv.
Qed.

Lemma permutation_in_range n x :
  is_permutation n x → Forall (λ i, 0 <= i < n) x.
Proof.
  intros Hx. unfold is_permutation in Hx. rewrite Hx.
  apply Forall_seqZ. intros; lia.
Qed.

Lemma mapped_tour_permutation self x :
  is_permutation (Z.of_nat (length (cities_to_visit self))) x →
  mapped_tour self x = Some (city_at self <$> x) ∧
  city_at self <$> x ≡ₚ cities_to_visit self.
Proof.
  intros Hx. split.
  - by apply mapped_tour_in_range, permutation_in_range.
  - unfold is_permutation in Hx. rewrite Hx. unfold city_at.
    by rewrite fmap_lookup_seqZ.
Qed.

(** ** Entries of the matrix *)

Lemma dist_elem_of D a b v : dist D a b = Some v → ∃ row, row ∈ D ∧ v ∈ row.
Proof.
  unfold dist. destruct (Py.index D a) as [row|] eqn:Hrow; [|done].
  simpl. intros Hv. exists row. eauto using index_elem_of.
Qed.

Lemma dist_nonneg D a b v : nonneg D → dist D a b = Some v → (0 <= v)%Q.
Proof.
  intros HD Hv. apply dist_elem_of in Hv as (row & Hrow & Hv).
  unfold nonneg in HD. rewrite Forall_forall in HD.
  specialize (HD row Hrow). rewrite Forall_forall in HD. auto.
Qed.

Lemma dist_is_Some D a b :
  square D →
  - Z.of_nat (length D) <= a < Z.of_nat (length D) →
  - Z.of_nat (length D) <= b < Z.of_nat (length D) →
  is_Some (dist D a b).
Proof.
  intros HD Ha Hb. unfold dist.
  destruct (proj2 (index_is_Some D a) Ha) as [row Hrow]. rewrite Hrow. simpl.
  apply index_is_Some. apply index_elem_of in Hrow.
  unfold square in HD. rewrite Forall_forall in HD. by rewrite (HD row Hrow).
Qed.

Lemma dist_None_l D a b :
  ¬ (- Z.of_nat (length D) <= a < Z.of_nat (length D)) → dist D a b = None.
Proof. intros Ha. unfold dist. by rewrite (proj2 (index_None D a) Ha). Qed.

Lemma dist_None_r D a b :
  square D →
  ¬ (- Z.of_nat (length D) <= b < Z.of_nat (length D)) → dist D a b = None.
Proof.
  intros HD Hb. unfold dist.
  destruct (Py.index D a) as [row|] eqn:Hrow; [|done]. simpl.
  apply index_None. apply index_elem_of in Hrow.
  unfold square in HD. rewrite Forall_forall in HD. by rewrite (HD row Hrow).
Qed.

Lemma index_mod {A} (l : list A) i :
  - Z.of_nat (length l) <= i < Z.of_nat (length l) →
  Py.index l i = Py.index l (i mod Z.of_nat (length l)).
Proof.
  intros Hi. destruct (decide (0 <= i)).
  - by rewrite Z.mod_small by lia.
  - rewrite index_negative by lia.
    replace (i mod Z.of_nat (length l)) with (Z.of_nat (length l) + i).
    + by rewrite index_nonneg by lia.
    + apply Z.mod_unique with (-1); lia.
Qed.

Lemma dist_mod D a b :
  square D →
  - Z.of_nat (length D) <= a < Z.of_nat (length D) →
  - Z.of_nat (length D) <= b < Z.of_nat (length D) →
  dist D a b = dist D (a mod Z.of_nat (length D)) (b mod Z.of_nat (length D)).
Proof.
  intros HD Ha Hb. unfold dist. rewrite <- index_mod by done.
  destruct (Py.index D a) as [row|] eqn:Hrow; [|done]. simpl.
  apply index_elem_of in Hrow.
  unfold square in HD. rewrite Forall_forall in HD.
  rewrite <- (HD row Hrow). apply index_mod. by rewrite (HD row Hrow).
Qed.

Lemma square_symmetric D : square D → symmetric_entries D → symmetric D.
Proof.
  intros HD Hsym i j. set (N := Z.of_nat (length D)).
  destruct (decide (- N <= i < N)) as [Hi|Hi];
    [destruct (decide (- N <= j < N)) as [Hj|Hj]|].
  - rewrite (dist_mod D i j), (dist_mod D j i) by done. fold N.
    unfold symmetric_entries in Hsym. rewrite Forall_forall in Hsym.
    assert (0 < N) by lia.
    specialize (Hsym (i mod N)). rewrite Forall_forall in Hsym.
    apply Hsym; apply elem_of_seqZ; pose proof (Z.mod_pos_bound i N);
      pose proof (Z.mod_pos_bound j N); lia.
  - rewrite (dist_None_l D j i), (dist_None_r D i j) by done. constructor.
  - rewrite (dist_None_l D i j), (dist_None_r D j i) by done. constructor.
Qed.

(** ** Legs of a path *)

Lemma legs_nonneg D cs v : nonneg D → legs D cs = Some v → (0 <= v)%Q.
Proof.
  intros HD. revert v. induction cs as [|a [|b rest] IH]; intros v.
  - intros [= <-]. done.
  - intros [= <-]. done.
  - rewrite legs_cons2. intros (d & m & Hd & Hm & ->)%oadd_Some.
    apply dist_nonneg in Hd; [|done]. specialize (IH m Hm).
    replace 0%Q with (0 + 0)%Q by done. by apply Qplus_le_compat.
Qed.

Lemma legs_is_Some D cs :
  square D →
  Forall (λ c, - Z.of_nat (length D) <= c < Z.of_nat (length D)) cs →
  is_Some (legs D cs).
Proof.
  intros HD. induction cs as [|a [|b rest] IH]; intros Hcs; [by eexists..|].
  rewrite legs_cons2.
  apply Forall_cons in Hcs as [Ha Hcs].
  destruct (IH Hcs) as [m ->].
  apply Forall_cons in Hcs as [Hb _].
  destruct (dist_is_Some D a b HD Ha Hb) as [d ->]. by eexists.
Qed.

Lemma legs_snoc D l a b :
  opt_Qeq (legs D (l ++ [a; b])) (oadd (legs D (l ++ [a])) (dist D a b)).
Proof.
  induction l as [|c [|c' l] IH].
  - simpl. destruct (dist D a b); constructor.
    by rewrite Qplus_0_l, Qplus_0_r.
  - simpl app. rewrite !legs_cons2.
    change (legs D [b]) with (Some 0%Q). change (legs D [a]) with (Some 0%Q).
    rewrite <- oadd_assoc. apply oadd_proper; [reflexivity|].
    by rewrite oadd_0_l, oadd_0_r.
  - change ((c :: c' :: l) ++ [a; b]) with (c :: c' :: (l ++ [a; b])).
    change ((c :: c' :: l) ++ [a]) with (c :: c' :: (l ++ [a])).
    rewrite !legs_cons2. rewrite <- oadd_assoc.
    apply oadd_proper; [reflexivity|]. apply IH.
Qed.

Lemma legs_reverse D l : symmetric D → opt_Qeq (legs D (reverse l)) (legs D l).
Proof.
  intros Hsym. induction l as [|a [|b rest] IH]; [done..|].
  rewrite (reverse_cons (b :: rest) a), (reverse_cons rest b).
  rewrite <- app_assoc. change ([b] ++ [a]) with [b; a].
  rewrite legs_snoc. rewrite <- reverse_cons.
  rewrite IH, legs_cons2, oadd_comm.
  apply oadd_proper; [apply Hsym|reflexivity].
Qed.

(** ** Mapping the reversed permutation *)

Lemma mapM_app {A B} (f : A → option B) l1 l2 :
  mapM f (l1 ++ l2) = k1 ← mapM f l1; k2 ← mapM f l2; Some (k1 ++ k2).
Proof.
  induction l1 as [|a l1 IH]; simpl.
  - by destruct (mapM f l2).
  - destruct (f a); simpl; [|done]. rewrite IH.
    destruct (mapM f l1); simpl; [|done]. by destruct (mapM f l2).
Qed.

Lemma mapM_reverse {A B} (f : A → option B) l :
  mapM f (reverse l) = reverse <$> mapM f l.
Proof.
  induction l as [|a l IH]; [done|].
  rewrite reverse_cons, mapM_app, IH. simpl.
  destruct (mapM f l) as [k|]; simpl.
  - destruct (f a); simpl; [|done]. by rewrite reverse_cons.
  - by destruct (f a).
Qed.

Lemma closed_tour_length_reverse D s cs :
  symmetric D →
  opt_Qeq (closed_tour_length D s (reverse cs)) (closed_tour_length D s cs).
Proof.
  intros Hsym. unfold closed_tour_length.
  rewrite head_reverse, last_reverse.
  destruct (head cs) as [c0|] eqn:Hh; destruct (last cs) as [cl|] eqn:Hl;
    simpl; try constructor.
  rewrite (legs_reverse D cs Hsym), (Hsym s cl), (Hsym c0 s).
  apply oadd_swap.
Qed.

Lemma closed_tour_length_nonneg D s cs v :
  nonneg D → closed_tour_length D s cs = Some v → (0 <= v)%Q.
Proof.
  intros HD. unfold closed_tour_length.
  destruct (head cs) as [c0|]; [|done]. destruct (last cs) as [cl|]; [|done].
  simpl. intros (u & dl & (d0 & m & Hd0 & Hm & ->)%oadd_Some & Hdl & ->)%oadd_Some.
  apply dist_nonneg in Hd0, Hdl; try done. apply legs_nonneg in Hm; [|done].
  replace 0%Q with (0 + 0 + 0)%Q by done.
  repeat apply Qplus_le_compat; done.
Qed.

Lemma closed_tour_length_is_Some D s cs :
  square D →
  - Z.of_nat (length D) <= s < Z.of_nat (length D) →
  Forall (λ c, - Z.of_nat (length D) <= c < Z.of_nat (length D)) cs →
  cs ≠ [] →
  is_Some (closed_tour_length D s cs).
Proof.
  intros HD Hs Hcs Hne. unfold closed_tour_length.
  destruct (proj2 (head_is_Some cs) Hne) as [c0 Hc0].
  destruct (proj2 (last_is_Some cs) Hne) as [cl Hcl].
  rewrite Hc0, Hcl. simpl.
  rewrite Forall_forall in Hcs.
  destruct (dist_is_Some D s c0 HD Hs) as [d0 ->];
    [by apply Hcs, head_Some_elem_of|].
  destruct (legs_is_Some D cs HD) as [m ->]; [by apply Forall_forall|].
  destruct (dist_is_Some D cl s HD) as [dl ->];
    [by apply Hcs, last_Some_elem_of|done|].
  by eexists.
Qed.

(** ** Decoding and evaluation are defined on well-formed inputs *)

Lemma mapped_tour_is_Some self x :
  is_Some (mapped_tour self x) ↔
  Forall (λ i, - Z.of_nat (length (cities_to_visit self)) <= i
               < Z.of_nat (length (cities_to_visit self))) x.
Proof.
  unfold mapped_tour. rewrite mapM_is_Some.
  apply Forall_proper; [|done]. intros i. simpl. apply index_is_Some.
Qed.

Lemma mapped_tour_elem_of self x cs :
  mapped_tour self x = Some cs → Forall (λ c, c ∈ cities_to_visit self) cs.
Proof.
  unfold mapped_tour. intros H%mapM_Some_1.
  induction H as [|i c x cs Hi _ IH]; constructor; [|done].
  by eapply index_elem_of.
Qed.

Lemma length_mapped_tour self x cs :
  mapped_tour self x = Some cs → length cs = length x.
Proof. intros H. symmetry. by eapply length_mapM. Qed.

Lemma opt_Qeq_is_Some a b : opt_Qeq a b → is_Some b → is_Some a.
Proof. intros [] [? [=]]; by eexists. Qed.

Lemma evaluate_is_Some D s x :
  square D →
  - Z.of_nat (length D) <= s < Z.of_nat (length D) →
  Forall (λ i, - Z.of_nat (length (cities_to_visit (TSPProblem_init D s))) <= i
               < Z.of_nat (length (cities_to_visit (TSPProblem_init D s)))) x →
  x ≠ [] →
  is_Some (_evaluate (TSPProblem_init D s) x).
Proof.
  intros HD Hs Hx Hne.
  eapply opt_Qeq_is_Some; [apply evaluate_closed_tour_length|].
  destruct (proj2 (mapped_tour_is_Some _ x) Hx) as [cs Hcs].
  rewrite Hcs. simpl.
  apply closed_tour_length_is_Some; [done|done| |].
  - eapply Forall_impl; [by eapply mapped_tour_elem_of|].
    intros c Hc. apply elem_of_cities_to_visit in Hc. lia.
  - apply length_mapped_tour in Hcs. destruct cs, x; done.
Qed.

(** ** Counting cities in a tour *)

Lemma count_occ_seqZ N c :
  0 <= c < N → count_occ Z.eq_dec (seqZ 0 N) c = 1%nat.
Proof.
  intros Hc. apply NoDup_count_occ'.
  - apply NoDup_ListNoDup, NoDup_seqZ.
  - apply list_elem_of_In, elem_of_seqZ. lia.
Qed.

Lemma count_occ_Permutation (l k : list Z) c :
  l ≡ₚ k → count_occ Z.eq_dec l c = count_occ Z.eq_dec k c.
Proof. intros H. by apply Permutation_count_occ. Qed.

(** ** The example matrix *)

Lemma square_D3 : square D3.
Proof. repeat constructor. Qed.

Lemma nonneg_D3 : nonneg D3.
Proof. repeat constructor; done. Qed.

Lemma symmetric_D3 : symmetric D3.
Proof.
  apply square_symmetric; [apply square_D3|].
  repeat constructor; reflexivity.
Qed.

(** ** The evaluation over other numbers *)

(** With the rationals, [evaluate_in] is [_evaluate]. *)
Lemma evaluate_in_Q D s x :
  _evaluate (TSPProblem_init D s) x = evaluate_in 0%Q Qplus D s x.
Proof. reflexivity. Qed.

Section number_facts.
Context {R : Type} (zero : R) (add : R → R → R).
Implicit Types (D : list (list R)).

Lemma foldl_evaluate_step_in_None D tour l :
  foldl (evaluate_step_in add D tour) None l = None.
Proof. induction l; simpl; auto. Qed.

Lemma evaluate_loop_addends D cs : ∀ pre acc,
  foldl (evaluate_step_in add D (pre ++ cs)) (Some acc)
    (seqZ (Z.of_nat (length pre)) (Z.of_nat (length cs) - 1))
  = foldl add acc <$> mapM (λ ab, dist_in D ab.1 ab.2) (zip cs (tail cs)).
Proof.
  induction cs as [|a [|b rest] IH]; intros pre acc; [done..|].
  replace (Z.of_nat (length (a :: b :: rest)) - 1)
    with (Z.succ (Z.of_nat (length rest))) by (simpl; lia).
  rewrite seqZ_cons by lia. rewrite Z.pred_succ.
  cbn [foldl].
  unfold evaluate_step_in at 2. cbn [mbind option_bind].
  rewrite index_app_middle. cbn [mbind option_bind].
  replace (pre ++ a :: b :: rest) with ((pre ++ [a]) ++ b :: rest)
    by (by rewrite <- app_assoc).
  replace (Z.of_nat (length pre) + 1) with (Z.of_nat (length (pre ++ [a])))
    by (rewrite length_app; simpl; lia).
  rewrite index_app_middle. cbn [mbind option_bind].
  cbn [tail zip zip_with mapM fst snd].
  destruct (dist_in D a b) as [d|] eqn:Hd; cbn [mbind option_bind].
  - replace (Z.succ (Z.of_nat (length pre)))
      with (Z.of_nat (length (pre ++ [a])))
      by (rewrite length_app; simpl; lia).
    replace (Z.of_nat (length rest))
      with (Z.of_nat (length (b :: rest)) - 1) by (simpl; lia).
    rewrite IH. cbn [tail].
    by destruct (mapM _ (zip (b :: rest) rest)).
  - by rewrite foldl_evaluate_step_in_None.
Qed.


Lemma zip_snoc_tail {A} (s : A) l : ∀ c0,
  zip (c0 :: l) (l ++ [s]) = zip (c0 :: l) l ++ [(default c0 (last l), s)].
Proof.
  induction l as [|c1 l IH]; intros c0; [done|].
  change (zip (c0 :: c1 :: l) ((c1 :: l) ++ [s]))
    with ((c0, c1) :: zip (c1 :: l) (l ++ [s])).
  rewrite (IH c1).
  change (zip (c0 :: c1 :: l) (c1 :: l)) with ((c0, c1) :: zip (c1 :: l) l).
  rewrite <- app_comm_cons. do 3 f_equal.
  destruct l as [|c2 l]; [done|]. rewrite last_cons_cons.
  destruct (last (c2 :: l)) eqn:Hl; [done|]. by apply last_None in Hl.
Qed.

Lemma zip_reverse {A B} (l : list A) : ∀ (k : list B),
  length l = length k → zip (reverse l) (reverse k) = reverse (zip l k).
Proof.
  induction l as [|a l IH]; intros [|b k] Hlen; try done.
  change (zip (a :: l) (b :: k)) with ((a, b) :: zip l k).
  rewrite !reverse_cons, <- IH by (simpl in Hlen; lia).
  rewrite zip_with_app; [done|].
  rewrite !length_reverse. simpl in Hlen. lia.
Qed.

Lemma zip_swap {A B} (l : list A) : ∀ (k : list B),
  zip k l = prod_swap <$> zip l k.
Proof.
  induction l as [|a l IH]; intros [|b k]; try done.
  cbn [zip zip_with fmap list_fmap]. f_equal. apply IH.
Qed.

Lemma mapM_fmap_ext {A B C} (f : B → option C) (g : A → B) (h : A → option C) l :
  (∀ a, f (g a) = h a) → mapM f (g <$> l) = mapM h l.
Proof.
  intros Hfg. induction l as [|a l IH]; [done|].
  cbn [fmap list_fmap mapM]. fold (g <$> l). by rewrite Hfg, IH.
Qed.

Lemma evaluate_in_addends D s x :
  evaluate_in zero add D s x = foldl add zero <$> addends_in D s x.
Proof.
  unfold evaluate_in, addends_in.
  destruct (mapM _ x) as [tour|]; cbn [mbind option_bind]; [|done].
  rewrite index_0_head, last_index_last.
  destruct tour as [|c0 rest]; [done|].
  cbn [head mbind option_bind].
  change (zip (s :: c0 :: rest) ((c0 :: rest) ++ [s]))
    with ((s, c0) :: zip (c0 :: rest) (rest ++ [s])).
  cbn [mapM fst snd].
  destruct (dist_in D s c0) as [d0|]; cbn [mbind option_bind]; [|done].
  pose proof (evaluate_loop_addends D (c0 :: rest) [] (add zero d0)) as Hloop.
  cbn [app tail] in Hloop. change (Z.of_nat (length [])) with 0 in Hloop.
  unfold Py.range. rewrite Hloop. clear Hloop.
  rewrite zip_snoc_tail, mapM_app.
  destruct (mapM _ (zip (c0 :: rest) rest)) as [mid|];
    cbn [fmap option_fmap option_map mbind option_bind]; [|done].
  assert (last (c0 :: rest) = Some (default c0 (last rest))) as ->.
  { destruct rest as [|c1 rest]; [done|]. rewrite last_cons_cons.
    by destruct (last (c1 :: rest)) eqn:Hl;
      [|apply last_None in Hl]. }
  cbn [mbind option_bind mapM fst snd].
  destruct (dist_in D _ s) as [dl|]; cbn [mbind option_bind]; [|done].
  simpl. by rewrite foldl_app.
Qed.

Lemma addends_in_reverse D s x :
  (∀ i j, dist_in D i j = dist_in D j i) →
  addends_in D s (reverse x) = reverse <$> addends_in D s x.
Proof.
  intros Hsym. unfold addends_in. rewrite mapM_reverse.
  destruct (mapM _ x) as [tour|]; cbn [fmap option_fmap option_map mbind option_bind];
    [|done].
  rewrite head_reverse.
  destruct (last tour) as [cl|] eqn:Hl.
  2:{ apply last_None in Hl as ->. done. }
  destruct (head tour) as [c0|] eqn:Hh.
  2:{ apply head_None in Hh as ->. done. }
  cbn [mbind option_bind].
  replace (s :: reverse tour) with (reverse (tour ++ [s]))
    by (by rewrite reverse_app).
  replace (reverse tour ++ [s]) with (reverse (s :: tour))
    by (by rewrite reverse_cons).
  rewrite zip_reverse by (rewrite length_app; simpl; lia).
  rewrite mapM_reverse. f_equal.
  rewrite (zip_swap (s :: tour) (tour ++ [s])).
  apply mapM_fmap_ext. intros [a b]. simpl. apply Hsym.
Qed.

Lemma dist_in_elem_of D a b v :
  dist_in D a b = Some v → ∃ row, row ∈ D ∧ v ∈ row.
Proof.
  unfold dist_in. destruct (Py.index D a) as [row|] eqn:Hrow; [|done].
  simpl. intros Hv. exists row. split; by eapply index_elem_of.
Qed.

Lemma addends_in_Forall (P : R → Prop) D s x l :
  Forall (Forall P) D → addends_in D s x = Some l → Forall P l.
Proof.
  intros HD. unfold addends_in.
  destruct (mapM _ x) as [tour|]; cbn [mbind option_bind]; [|done].
  destruct (head tour); cbn [mbind option_bind]; [|done].
  intros Hl. apply Forall_forall. intros v Hv.
  apply mapM_Some_1 in Hl.
  apply list_elem_of_lookup_1 in Hv as [k Hk].
  destruct (Forall2_lookup_r _ _ _ _ _ Hl Hk) as ([a b] & _ & Hab).
  apply dist_in_elem_of in Hab as (row & Hrow & Hin).
  rewrite Forall_forall in HD. specialize (HD row Hrow).
  rewrite Forall_forall in HD. by apply HD.
Qed.

Lemma foldl_closed (P : R → Prop) l : ∀ acc,
  (∀ a b, P a → P b → P (add a b)) → P acc → Forall P l → P (foldl add acc l).
Proof.
  induction l as [|d l IH]; intros acc Hadd Hacc Hl; [done|].
  apply Forall_cons in Hl as [Hd Hl]. simpl. apply IH; auto.
Qed.

Lemma evaluate_in_closed (P : R → Prop) D s x v :
  P zero → (∀ a b, P a → P b → P (add a b)) →
  Forall (Forall P) D → evaluate_in zero add D s x = Some v → P v.
Proof.
  intros Hzero Hadd HD. rewrite evaluate_in_addends.
  destruct (addends_in D s x) as [l|] eqn:Hl; [|done].
  intros [= <-]. apply foldl_closed; [done..|].
  by eapply addends_in_Forall.
Qed.


Lemma dist_in_None_l D a b :
  ¬ (- Z.of_nat (length D) <= a < Z.of_nat (length D)) → dist_in D a b = None.
Proof. intros Ha. unfold dist_in. by rewrite (proj2 (index_None D a) Ha). Qed.

Lemma dist_in_None_r D a b :
  Forall (λ row, length row = length D) D →
  ¬ (- Z.of_nat (length D) <= b < Z.of_nat (length D)) → dist_in D a b = None.
Proof.
  intros HD Hb. unfold dist_in.
  destruct (Py.index D a) as [row|] eqn:Hrow; [|done]. simpl.
  apply index_None. apply index_elem_of in Hrow.
  rewrite Forall_forall in HD. by rewrite (HD row Hrow).
Qed.

End number_facts.

(** ** The sign of a binary64 sum

    Rounding keeps the sign: the sum of two doubles that are not negative
    is not negative (it may be [inf]). *)

Section rounding_sign.
Variables prec emax : Z.

Lemma shr_1_nonneg mrs : 0 <= shr_m mrs → 0 <= shr_m (shr_1 mrs).
Proof.
  destruct mrs as [m r s]. simpl.
  destruct m as [|[p|p|]|[p|p|]]; simpl; lia.
Qed.

Lemma iter_pos_shr_1_nonneg p : ∀ mrs,
  0 <= shr_m mrs → 0 <= shr_m (iter_pos shr_1 p mrs).
Proof.
  induction p as [p IH|p IH|]; intros mrs Hm; simpl.
  - by apply IH, IH, shr_1_nonneg.
  - by apply IH, IH.
  - by apply shr_1_nonneg.
Qed.

Lemma shr_nonneg mrs e n : 0 <= shr_m mrs → 0 <= shr_m (shr mrs e n).1.
Proof.
  intros Hm. destruct n; simpl; [done| |done].
  by apply iter_pos_shr_1_nonneg.
Qed.

Lemma shr_fexp_nonneg m e l :
  0 <= m → 0 <= shr_m (shr_fexp prec emax m e l).1.
Proof.
  intros Hm. unfold shr_fexp. apply shr_nonneg.
  destruct l as [|[]]; done.
Qed.

Lemma round_nearest_even_nonneg m l : 0 <= m → 0 <= round_nearest_even m l.
Proof.
  intros Hm. destruct l as [|[]]; simpl; [done| |done|lia].
  destruct (Z.even m); lia.
Qed.

Lemma binary_round_aux_nonneg m e l :
  0 <= m → sf_nonneg (binary_round_aux prec emax false m e l).
Proof.
  intros Hm. unfold binary_round_aux.
  pose proof (shr_fexp_nonneg m e l Hm) as H1.
  destruct (shr_fexp prec emax m e l) as [mrs' e']. simpl in H1.
  pose proof (shr_fexp_nonneg
                (round_nearest_even (shr_m mrs') (loc_of_shr_record mrs'))
                e' loc_Exact (round_nearest_even_nonneg _ _ H1)) as H2.
  destruct (shr_fexp prec emax _ e' loc_Exact) as [mrs'' e'']. simpl in H2.
  destruct (shr_m mrs'') as [|p|p]; [done| |lia].
  by destruct (e'' <=? emax - prec).
Qed.

Lemma SFadd_nonneg x y :
  sf_nonneg x → sf_nonneg y → sf_nonneg (SFadd prec emax x y).
Proof.
  unfold sf_nonneg.
  destruct x as [sx|sx| |sx mx ex], y as [sy|sy| |sy my ey];
    try destruct sx; try destruct sy; simpl; try done.
  intros _ _. unfold binary_normalize.
  destruct (shl_align mx ex (Z.min ex ey)) as [m1 e1].
  destruct (shl_align my ey (Z.min ex ey)) as [m2 e2]. simpl.
  unfold binary_round.
  destruct (shl_align _ _ _) as [mz ez].
  by apply binary_round_aux_nonneg.
Qed.

End rounding_sign.

Lemma float_add_nonneg (a b : float) :
  PrimFloat.leb 0 a = true → PrimFloat.leb 0 b = true →
  PrimFloat.leb 0 (a + b) = true.
Proof.
  rewrite !leb_spec, add_spec.
  change (Prim2SF 0) with (S754_zero false).
  apply SFadd_nonneg.
Qed.

(** ** Doubles below [float('inf')] *)

Lemma below_infinity (d : float) :
  Binary64.better d infinity = true ↔
  Prim2SF d ≠ S754_nan ∧ Prim2SF d ≠ S754_infinity false.
Proof.
  unfold Binary64.better. rewrite ltb_spec.
  change (Prim2SF infinity) with (S754_infinity false).
  destruct (Prim2SF d) as [s|[]| |s m e]; simpl; split; try done.
  - by intros [_ ?].
  - by intros [? _].
Qed.

(** ** The example matrix of doubles *)

Lemma nonneg_D3_binary64 : Binary64.nonneg Binary64.D3.
Proof. repeat constructor. Qed.

Lemma symmetric_D3_binary64 : Binary64.symmetric Binary64.D3.
Proof.
  intros i j.
  destruct (decide (- 3 <= i < 3)) as [Hi|Hi].
  2:{ rewrite (dist_in_None_l Binary64.D3 i j) by done.
      rewrite (dist_in_None_r Binary64.D3 j i); [done| |done].
      repeat constructor. }
  destruct (decide (- 3 <= j < 3)) as [Hj|Hj].
  2:{ rewrite (dist_in_None_l Binary64.D3 j i) by done.
      rewrite (dist_in_None_r Binary64.D3 i j); [done| |done].
      repeat constructor. }
  assert (i = -3 ∨ i = -2 ∨ i = -1 ∨ i = 0 ∨ i = 1 ∨ i = 2) as Hi' by lia.
  assert (j = -3 ∨ j = -2 ∨ j = -1 ∨ j = 0 ∨ j = 1 ∨ j = 2) as Hj' by lia.
  destruct Hi' as [-> | [-> | [-> | [-> | [-> | ->]]]]];
    destruct Hj' as [-> | [-> | [-> | [-> | [-> | ->]]]]]; reflexivity.
Qed.

(** * The claims on the encoding *)

(** C1. For a permutation [x] of [0 .. n_var-1], [_evaluate] maps [x] to the
    cities [c_k = cities_to_visit[x[k]]] and its value is
    [D[s][c_0] + sum_k D[c_k][c_{k+1}] + D[c_last][s]], the length of the
    closed tour with both legs at the start city and nothing else applied
    to it; on a square matrix with a start city in range and a non-empty
    permutation that value exists. *)
Theorem evaluate_is_closed_tour_length (D : matrix) (s : Z) (x : list Z) :
  is_permutation (n_var (TSPProblem_init D s)) x →
  mapped_tour (TSPProblem_init D s) x
    = Some (city_at (TSPProblem_init D s) <$> x) ∧
  opt_Qeq (_evaluate (TSPProblem_init D s) x)
          (closed_tour_length D s (city_at (TSPProblem_init D s) <$> x)) ∧
  (square D → 0 <= s < Z.of_nat (length D) → x ≠ [] →
   is_Some (_evaluate (TSPProblem_init D s) x)).
Proof.
  intros Hx.
  destruct (mapped_tour_permutation (TSPProblem_init D s) x Hx) as [Hmap Hperm].
  split; [done|]. split.
  - rewrite evaluate_closed_tour_length, Hmap. reflexivity.
  - intros HD Hs Hne. apply evaluate_is_Some; [done|lia| |done].
    eapply Forall_impl; [by apply permutation_in_range|].
    intros i Hi. simpl in *. lia.
Qed.

Lemma evaluate_is_closed_tour_length_witness :
  is_permutation (n_var (TSPProblem_init D3 1)) [1; 0] ∧
  opt_Qeq (_evaluate (TSPProblem_init D3 1) [1; 0]) (Some (6 + 9 + 2)%Q).
Proof.
  assert (is_permutation (n_var (TSPProblem_init D3 1)) [1; 0]) as Hx
    by apply perm_swap.
  split; [exact Hx|].
  destruct (evaluate_is_closed_tour_length D3 1 [1; 0] Hx) as (_ & H & _).
  etransitivity; [exact H|]. constructor. reflexivity.
Defined.

(** C2. For a start city [s] in range and a permutation [x] of
    [0 .. n_var-1], [cities_to_visit] is the ascending list of the city
    indices other than [s], and decoding gives the tour
    [[s] + [cities_to_visit[x[k]] for each k] + [s]]: its element at
    position k+1 is [cities_to_visit[x[k]]], it has N+1 elements, starts
    and ends with [s], holds [s] twice and every other city once. *)
Theorem decoded_tour_visits_every_city (D : matrix) (s : Z) (x : list Z) :
  0 <= s < Z.of_nat (length D) →
  is_permutation (n_var (TSPProblem_init D s)) x →
  StronglySorted Z.lt (cities_to_visit (TSPProblem_init D s)) ∧
  (∀ c, c ∈ cities_to_visit (TSPProblem_init D s)
        ↔ 0 <= c < Z.of_nat (length D) ∧ c ≠ s) ∧
  ∃ t, complete_tour (TSPProblem_init D s) s x = Some t ∧
       t = [s] ++ (city_at (TSPProblem_init D s) <$> x) ++ [s] ∧
       (∀ (k : nat) i, x !! k = Some i →
          0 <= i < Z.of_nat (length (cities_to_visit (TSPProblem_init D s))) ∧
          ∃ c, cities_to_visit (TSPProblem_init D s) !! Z.to_nat i = Some c ∧
               t !! S k = Some c) ∧
       Z.of_nat (length t) = Z.of_nat (length D) + 1 ∧
       head t = Some s ∧ last t = Some s ∧
       count_occ Z.eq_dec t s = 2%nat ∧
       (∀ c, 0 <= c < Z.of_nat (length D) → c ≠ s →
             count_occ Z.eq_dec t c = 1%nat) ∧
       (∀ c, c ∈ t → 0 <= c < Z.of_nat (length D)).
Proof.
  intros Hs Hx. split; [|split].
  - rewrite cities_to_visit_valid by done.
    apply StronglySorted_app_2; [|apply StronglySorted_seqZ..].
    intros a b Ha%elem_of_seqZ Hb%elem_of_seqZ. lia.
  - intros c. apply elem_of_cities_to_visit.
  - destruct (mapped_tour_permutation (TSPProblem_init D s) x Hx)
      as [Hmap Hperm].
    set (cs := city_at (TSPProblem_init D s) <$> x) in *.
    exists ([s] ++ cs ++ [s]). unfold complete_tour. rewrite Hmap.
    assert (([s] ++ cs ++ [s]) ≡ₚ s :: seqZ 0 (Z.of_nat (length D))) as Ht.
    { rewrite <- (cities_to_visit_start_permutation D s Hs), Hperm.
      simpl. apply perm_skip. by rewrite Permutation_app_comm. }
    split_and!.
    + done.
    + done.
    + intros k i Hk.
      assert (0 <= i < Z.of_nat (length (cities_to_visit (TSPProblem_init D s))))
        as Hi.
      { apply list_elem_of_lookup_2 in Hk. unfold is_permutation in Hx.
        rewrite Hx in Hk. by apply elem_of_seqZ in Hk. }
      split; [done|].
      destruct (lookup_lt_is_Some_2 (cities_to_visit (TSPProblem_init D s))
                  (Z.to_nat i)) as [c Hc]; [lia|].
      exists c. split; [done|].
      change (([s] ++ cs ++ [s]) !! S k) with ((cs ++ [s]) !! k).
      rewrite lookup_app_l
        by (unfold cs; rewrite length_fmap; by eapply lookup_lt_Some).
      unfold cs. rewrite list_lookup_fmap, Hk. simpl.
      unfold city_at. by rewrite Hc.
    + rewrite Ht. simpl. rewrite length_seqZ. lia.
    + done.
    + rewrite app_assoc. apply last_snoc.
    + rewrite (count_occ_Permutation _ _ s Ht). simpl.
      destruct (Z.eq_dec s s); [|done].
      by rewrite count_occ_seqZ.
    + intros c Hc Hne. rewrite (count_occ_Permutation _ _ c Ht). simpl.
      destruct (Z.eq_dec s c); [congruence|]. by rewrite count_occ_seqZ.
    + intros c Hc. rewrite Ht in Hc.
      apply elem_of_cons in Hc as [->|Hc%elem_of_seqZ]; lia.
Qed.

Lemma decoded_tour_visits_every_city_witness :
  0 <= 1 < Z.of_nat (length D3) ∧
  is_permutation (n_var (TSPProblem_init D3 1)) [1; 0] ∧
  cities_to_visit (TSPProblem_init D3 1) = [0; 2] ∧
  ∃ t, complete_tour (TSPProblem_init D3 1) 1 [1; 0] = Some t ∧
       t = [1; 2; 0; 1] ∧
       Z.of_nat (length t) = 4 ∧ count_occ Z.eq_dec t 1 = 2%nat.
Proof.
  assert (0 <= 1 < Z.of_nat (length D3)) as Hs by (simpl; lia).
  assert (is_permutation (n_var (TSPProblem_init D3 1)) [1; 0]) as Hx
    by apply perm_swap.
  split; [exact Hs|]. split; [exact Hx|]. split; [reflexivity|].
  destruct (decoded_tour_visits_every_city D3 1 [1; 0] Hs Hx)
    as (_ & _ & t & Ht & Heq & _ & Hlen & _ & _ & Hcount & _).
  exists t. split; [exact Ht|]. split; [exact Heq|]. split; [exact Hlen|].
  exact Hcount.
Defined.

(** C10. A start city outside [0 .. N-1] is accepted by the constructor,
    which checks nothing: no index is excluded, so [cities_to_visit] is all
    of [0 .. N-1] and [n_var = N], and the decoded tour is the start index,
    then a permutation of all N cities, none of them the start index, then
    the start index again. *)
Theorem start_city_out_of_range_is_accepted (D : matrix) (s : Z) (x : list Z) :
  s < 0 ∨ Z.of_nat (length D) <= s →
  is_permutation (n_var (TSPProblem_init D s)) x →
  cities_to_visit (TSPProblem_init D s) = seqZ 0 (Z.of_nat (length D)) ∧
  n_var (TSPProblem_init D s) = Z.of_nat (length D) ∧
  ∃ cs, complete_tour (TSPProblem_init D s) s x = Some ([s] ++ cs ++ [s]) ∧
        cs ≡ₚ seqZ 0 (Z.of_nat (length D)) ∧ s ∉ cs.
Proof.
  intros Hs Hx.
  pose proof (cities_to_visit_invalid D s Hs) as Hctv.
  split; [done|]. split.
  - unfold n_var, TSPProblem_init. fold (TSPProblem_init D s).
    change (filter _ _) with (cities_to_visit (TSPProblem_init D s)).
    rewrite Hctv, length_seqZ. lia.
  - destruct (mapped_tour_permutation (TSPProblem_init D s) x Hx)
      as [Hmap Hperm].
    exists (city_at (TSPProblem_init D s) <$> x).
    unfold complete_tour. rewrite Hmap. split; [done|].
    rewrite Hperm, Hctv. split; [done|].
    rewrite elem_of_seqZ. lia.
Qed.

Lemma start_city_out_of_range_is_accepted_witness :
  (-1 < 0 ∨ Z.of_nat (length D3) <= -1) ∧
  is_permutation (n_var (TSPProblem_init D3 (-1))) [2; 0; 1] ∧
  complete_tour (TSPProblem_init D3 (-1)) (-1) [2; 0; 1]
    = Some [-1; 2; 0; 1; -1].
Proof.
  assert (-1 < 0 ∨ Z.of_nat (length D3) <= -1) as Hs by (left; lia).
  assert (is_permutation (n_var (TSPProblem_init D3 (-1))) [2; 0; 1]) as Hx.
  { change ([2; 0; 1] ≡ₚ [0; 1; 2]).
    change ([2] ++ [0; 1] ≡ₚ [0; 1] ++ [2]). apply Permutation_app_comm. }
  split; [exact Hs|]. split; [exact Hx|].
  destruct (start_city_out_of_range_is_accepted D3 (-1) [2; 0; 1] Hs Hx)
    as (_ & _ & cs & Hcs & _).
  reflexivity.
Defined.

(** C6, as the code has it.  Decoding checks nothing but what indexing
    checks: it raises IndexError exactly when some entry of [x] is outside
    [-n, n) for [n = len(cities_to_visit)]; every other sequence, with
    repeated or missing indices or with negative entries (which count from
    the end), is decoded into [[s] + [cities_to_visit[i mod n] ...] + [s]]. *)
Theorem decode_checks_only_index_range (problem : TSPProblem) (s : Z)
    (x : list Z) (w : world) :
  let n := Z.of_nat (length (cities_to_visit problem)) in
  (Exists (λ i, ¬ (- n <= i < n)) x ↔
   indexing (complete_tour problem s x) w = (inl IndexError, w)) ∧
  (Forall (λ i, - n <= i < n) x ↔
   indexing (complete_tour problem s x) w =
     (inr ([s] ++ ((λ i, default 0 (cities_to_visit problem !! Z.to_nat (i mod n)))
                     <$> x) ++ [s]), w)).
Proof.
  intros n.
  assert (Forall (λ i, - n <= i < n) x →
          mapped_tour problem x =
          Some ((λ i, default 0 (cities_to_visit problem !! Z.to_nat (i mod n)))
                  <$> x)) as Hin.
  { intros Hx. unfold mapped_tour. apply mapM_Some_2.
    apply Forall2_fmap_r, Forall_Forall2_diag.
    eapply Forall_impl; [exact Hx|]. intros i Hi. simpl in *.
    rewrite index_mod by done. fold n.
    pose proof (Z.mod_pos_bound i n ltac:(lia)).
    rewrite index_nonneg by lia.
    destruct (lookup_lt_is_Some_2 (cities_to_visit problem)
                (Z.to_nat (i mod n))) as [v Hv]; [lia|]. by rewrite Hv. }
  assert (Exists (λ i, ¬ (- n <= i < n)) x ↔ mapped_tour problem x = None)
    as Hout.
  { unfold mapped_tour. rewrite mapM_None.
    apply Exists_proper; [|done]. intros i. by rewrite index_None. }
  split.
  - rewrite Hout. unfold complete_tour.
    destruct (mapped_tour problem x); simpl; split; intros [=]; done.
  - split.
    + intros Hx. unfold complete_tour. by rewrite (Hin Hx).
    + intros Hdec. apply mapped_tour_is_Some. unfold complete_tour in Hdec.
      destruct (mapped_tour problem x); [by eexists|]. by inversion Hdec.
Qed.

(** C6 as stated fails: [[0; 0]] repeats index 0 and misses index 1, and
    [[-1; 0]] holds a negative entry, yet both are decoded into tours; the
    out-of-range [[2; 0]] raises IndexError. *)
Lemma decode_accepts_non_bijection :
  ¬ is_permutation (n_var (TSPProblem_init D3 0)) [0; 0] ∧
  complete_tour (TSPProblem_init D3 0) 0 [0; 0] = Some [0; 1; 1; 0] ∧
  complete_tour (TSPProblem_init D3 0) 0 [-1; 0] = Some [0; 2; 1; 0] ∧
  complete_tour (TSPProblem_init D3 0) 0 [2; 0] = None.
Proof.
  split; [|done].
  intros H. assert (1 ∈ [0; 0]) as Hin.
  { unfold is_permutation in H. rewrite H. apply elem_of_seqZ. simpl. lia. }
  rewrite !elem_of_cons, elem_of_nil in Hin. destruct Hin as [?|[?|[]]]; done.
Qed.

Lemma evaluate_exact_nonneg_and_reverse (D : matrix) (s : Z) (x : list Z) :
  (nonneg D →
   ∀ v, _evaluate (TSPProblem_init D s) x = Some v → (0 <= v)%Q) ∧
  (symmetric D →
   opt_Qeq (_evaluate (TSPProblem_init D s) (reverse x))
           (_evaluate (TSPProblem_init D s) x)) ∧
  (square D → - Z.of_nat (length D) <= s < Z.of_nat (length D) →
   Forall (λ i, - n_var (TSPProblem_init D s) <= i
                < n_var (TSPProblem_init D s)) x →
   x ≠ [] → is_Some (_evaluate (TSPProblem_init D s) x)).
Proof.
  split_and!.
  - intros Hnn v Hv.
    pose proof (evaluate_closed_tour_length (TSPProblem_init D s) x) as H.
    rewrite Hv in H. inversion H as [v0 v' Hvv' Hv0 Hcl|]; subst.
    symmetry in Hcl.
    destruct (mapped_tour (TSPProblem_init D s) x) as [cs|]; [|done].
    simpl in Hcl. apply closed_tour_length_nonneg in Hcl; [|done].
    by rewrite Hvv'.
  - intros Hsym. rewrite !evaluate_closed_tour_length.
    unfold mapped_tour. rewrite mapM_reverse.
    destruct (mapM _ x) as [cs|]; simpl; [|constructor].
    by apply closed_tour_length_reverse.
  - intros HD Hs Hx Hne. by apply evaluate_is_Some.
Qed.

(** C8, as the code has it.  On a matrix with non-negative entries every
    evaluated tour length is at least 0, in binary64 as in exact
    arithmetic.  The evaluation is the sum, from 0 and from left to right,
    of the entries [D[s][c_0]], [D[c_k][c_{k+1}]], [D[c_last][s]]; on a
    symmetric matrix the reversed permutation adds the same entries in the
    opposite order.  In exact arithmetic the two evaluations are then equal
    (or both raise); in binary64 each addition rounds, and no equality of
    the two sums is stated.  On a square matrix of rationals the evaluation
    of a non-empty sequence of valid indices from a valid start city is
    defined. *)
Theorem evaluate_nonneg_and_reverse_order (D : matrix)
    (Df : Binary64.matrix) (s : Z) (x : list Z) :
  (Binary64.nonneg Df →
   ∀ v, Binary64._evaluate Df s x = Some v → PrimFloat.leb 0 v = true) ∧
  Binary64._evaluate Df s x
    = foldl PrimFloat.add 0%float <$> Binary64.addends Df s x ∧
  (Binary64.symmetric Df →
   Binary64.addends Df s (reverse x) = reverse <$> Binary64.addends Df s x ∧
   Binary64._evaluate Df s (reverse x)
     = (λ l, foldl PrimFloat.add 0%float (reverse l))
         <$> Binary64.addends Df s x) ∧
  (nonneg D →
   ∀ v, _evaluate (TSPProblem_init D s) x = Some v → (0 <= v)%Q) ∧
  (symmetric D →
   opt_Qeq (_evaluate (TSPProblem_init D s) (reverse x))
           (_evaluate (TSPProblem_init D s) x)) ∧
  (square D → - Z.of_nat (length D) <= s < Z.of_nat (length D) →
   Forall (λ i, - n_var (TSPProblem_init D s) <= i
                < n_var (TSPProblem_init D s)) x →
   x ≠ [] → is_Some (_evaluate (TSPProblem_init D s) x)).
Proof.
  split_and!.
  - intros Hnn v Hv.
    apply (evaluate_in_closed 0%float PrimFloat.add
             (λ d, PrimFloat.leb 0 d = true) Df s x v);
      [reflexivity|apply float_add_nonneg|exact Hnn|exact Hv].
  - apply evaluate_in_addends.
  - intros Hsym.
    assert (Binary64.addends Df s (reverse x)
            = reverse <$> Binary64.addends Df s x) as Hrev
      by (by apply addends_in_reverse).
    split; [exact Hrev|].
    unfold Binary64._evaluate. rewrite evaluate_in_addends.
    fold (Binary64.addends Df s (reverse x)). rewrite Hrev.
    by destruct (Binary64.addends Df s x).
  - apply evaluate_exact_nonneg_and_reverse.
  - apply evaluate_exact_nonneg_and_reverse.
  - apply evaluate_exact_nonneg_and_reverse.
Qed.

Lemma evaluate_nonneg_and_reverse_order_witness :
  Binary64.nonneg Binary64.D3 ∧ Binary64.symmetric Binary64.D3 ∧
  nonneg D3 ∧ symmetric D3 ∧
  Binary64.addends Binary64.D3 0 [0; 1]
    = Some [Binary64.d01; Binary64.d03; Binary64.d02] ∧
  Binary64.addends Binary64.D3 0 (reverse [0; 1])
    = Some [Binary64.d02; Binary64.d03; Binary64.d01] ∧
  PrimFloat.leb 0 0x1.3333333333334p-1 = true ∧
  (0 <= 17)%Q ∧
  opt_Qeq (_evaluate (TSPProblem_init D3 1) (reverse [1; 0]))
          (_evaluate (TSPProblem_init D3 1) [1; 0]).
Proof.
  split; [exact nonneg_D3_binary64|]. split; [exact symmetric_D3_binary64|].
  split; [exact nonneg_D3|]. split; [exact symmetric_D3|].
  destruct (evaluate_nonneg_and_reverse_order D3 Binary64.D3 0 [0; 1])
    as (Hnnf & _ & Hrevf & _).
  destruct (evaluate_nonneg_and_reverse_order D3 Binary64.D3 1 [1; 0])
    as (_ & _ & _ & Hnn & Hrev & _).
  split; [reflexivity|].
  split; [exact (proj1 (Hrevf symmetric_D3_binary64))|].
  split; [by apply (Hnnf nonneg_D3_binary64)|].
  split; [by apply (Hnn nonneg_D3)|]. exact (Hrev symmetric_D3).
Defined.

(** C8 as stated fails on the doubles of the program.  The matrix
    [[[0, .1, .2], [.1, 0, .3], [.2, .3, 0]]] is symmetric with
    non-negative entries, and from start city 0 the permutation [[0, 1]]
    evaluates to [(0.1 + 0.3) + 0.2 = 0.6000000000000001] while its reverse
    evaluates to [(0.2 + 0.3) + 0.1 = 0.6]: the two doubles are not
    equal. *)
Lemma reverse_changes_binary64_sum :
  Binary64.nonneg Binary64.D3 ∧ Binary64.symmetric Binary64.D3 ∧
  is_permutation 2 [0; 1] ∧
  Binary64._evaluate Binary64.D3 0 [0; 1]
    = Some 0x1.3333333333334p-1%float ∧
  Binary64._evaluate Binary64.D3 0 (reverse [0; 1])
    = Some 0x1.3333333333333p-1%float ∧
  PrimFloat.eqb 0x1.3333333333334p-1 0x1.3333333333333p-1 = false ∧
  PrimFloat.ltb 0x1.3333333333333p-1 0x1.3333333333334p-1 = true.
Proof.
  split; [exact nonneg_D3_binary64|]. split; [exact symmetric_D3_binary64|].
  split; [unfold is_permutation; reflexivity|].
  split_and!; reflexivity.
Qed.

(** * The solver *)

Section solver_facts.
Variable minimize : Minimize.

Lemma solve_with_genetic_algorithm_param :
  solve_with_genetic_algorithm minimize =
  parameterized_solve minimize None None 42 "Genetic Algorithm (GA)".
Proof. reflexivity. Qed.

Lemma solve_with_modified_ga_param :
  solve_with_modified_ga minimize =
  parameterized_solve minimize (Some 0.95%Q) (Some 0.2%Q) 123
    "Modified Genetic Algorithm (GA-2)".
Proof. reflexivity. Qed.

(** The three ways a run can end. *)
Lemma parameterized_solve_cases pc pm seed label self s pop n w :
  let problem := TSPProblem_init (solver_distance_matrix self) s in
  let r := parameterized_solve minimize pc pm seed label self s pop n w in
  match minimize problem (algorithm_of pop pc pm)
          (get_termination "n_gen" n) seed false with
  | inl e => r = (inl e, entering label s pop n w)
  | inr res =>
      ticks (snd r) = S (S (ticks w)) ∧
      fst r = outcome_of problem label s n
                (clock w (S (ticks w)) - clock w (ticks w))%Q res ∧
      ∃ rest, stdout (snd r) = stdout (entering label s pop n w) ++ rest
  end.
Proof.
  intros problem r. subst r. unfold parameterized_solve, algorithm_of.
  fold problem.
  unfold mbind, M_bind, print, time_time. simpl.
  destruct (minimize _ _ _ _ _) as [e|res]; simpl.
  { unfold entering. by rewrite <- !app_assoc. }
  unfold outcome_of.
  destruct (X res) as [best_perm|]; simpl.
  2:{ split_and!; [done..|]. exists []. by rewrite <- !app_assoc. }
  destruct (complete_tour problem s best_perm) as [t|]; simpl.
  2:{ split_and!; [done..|]. exists []. by rewrite <- !app_assoc. }
  destruct (F res) as [fitness|]; simpl.
  2:{ split_and!; [done..|]. exists []. by rewrite <- !app_assoc. }
  destruct (Py.index fitness 0) as [d|]; simpl.
  2:{ split_and!; [done..|]. exists []. by rewrite <- !app_assoc. }
  split_and!; [done..|]. eexists. rewrite <- !app_assoc. simpl. reflexivity.
Qed.

End solver_facts.

Lemma identity_optimiser_contract : returns_evaluated_permutation identity_optimiser.
Proof.
  intros problem algorithm termination seed verbose res.
  unfold identity_optimiser.
  destruct (_evaluate problem (seqZ 0 (n_var problem))) as [f|] eqn:Hf; [|done].
  intros [= <-]. simpl. eexists _, f.
  split_and!; [done|done|unfold is_permutation; reflexivity|done].
Qed.

Lemma descending_optimiser_permutation :
  returns_permutation descending_optimiser.
Proof.
  intros problem algorithm termination seed verbose res [= <-]. simpl.
  eexists. split; [done|]. unfold is_permutation. apply reverse_Permutation.
Qed.

(** * The claims on the solver *)

(** C9. The primary run and the modified run are the same function of the
    four parameters (crossover probability, mutation probability, seed,
    label): same sampling, crossover and mutation operators, duplicate
    elimination, termination, decoding and fitness. *)
Theorem both_runs_are_one_engine (minimize : Minimize) :
  solve_with_genetic_algorithm minimize =
    parameterized_solve minimize None None 42 "Genetic Algorithm (GA)" ∧
  solve_with_modified_ga minimize =
    parameterized_solve minimize (Some 0.95%Q) (Some 0.2%Q) 123
      "Modified Genetic Algorithm (GA-2)".
Proof.
  split; [apply solve_with_genetic_algorithm_param
         |apply solve_with_modified_ga_param].
Qed.




(** ** The loop of [compare_algorithms] *)

Lemma compare_loop_app minimize self pop n l1 l2 : ∀ results w,
  compare_loop minimize self pop n (l1 ++ l2) results w =
  match compare_loop minimize self pop n l1 results w with
  | (inl e, w') => (inl e, w')
  | (inr results', w') => compare_loop minimize self pop n l2 results' w'
  end.
Proof.
  induction l1 as [|c l1 IH]; intros results w; [done|].
  simpl. unfold mbind, M_bind.
  destruct (compare_step minimize self pop n results c w) as [[e|r] w'];
    [done|]. apply IH.
Qed.

Lemma compare_step_fails minimize self pop n results c w e w2 :
  (solve_with_genetic_algorithm minimize self c pop n w = (inl e, w2) ∨
   ∃ g w', solve_with_genetic_algorithm minimize self c pop n w = (inr g, w') ∧
           solve_with_modified_ga minimize self c pop n w' = (inl e, w2)) →
  compare_step minimize self pop n results c w = (inl e, w2).
Proof.
  unfold compare_step, mbind, M_bind.
  intros [H | (g & w' & Hg & H)].
  - by rewrite H.
  - by rewrite Hg, H.
Qed.

(** C5, as the code has it.  [compare_algorithms] catches nothing: when
    the runs of the start cities [pre] have succeeded and a run of the next
    city raises, [compare_algorithms] raises that exception there; no run
    of a later city is started and no results are returned, those of the
    completed runs included. *)
Theorem compare_algorithms_stops_at_first_failure (minimize : Minimize)
    (self : TSPSolver) (pre : list Z) (c : Z) (post : list Z)
    (pop_size n_gen : Z) (w w1 w2 : world)
    (results1 : gmap Z (gmap string RunResult)) (e : exn) :
  compare_loop minimize self pop_size n_gen pre ∅ w = (inr results1, w1) →
  (solve_with_genetic_algorithm minimize self c pop_size n_gen w1 = (inl e, w2)
   ∨ ∃ g w',
       solve_with_genetic_algorithm minimize self c pop_size n_gen w1
         = (inr g, w') ∧
       solve_with_modified_ga minimize self c pop_size n_gen w' = (inl e, w2)) →
  compare_algorithms minimize self (pre ++ c :: post) pop_size n_gen w
    = (inl e, w2).
Proof.
  intros Hpre Hfail. unfold compare_algorithms.
  unfold mbind at 1. unfold M_bind at 1.
  rewrite compare_loop_app, Hpre. simpl.
  unfold mbind at 1. unfold M_bind at 1.
  by rewrite (compare_step_fails _ _ _ _ _ _ _ _ _ Hfail).
Qed.

Lemma compare_algorithms_stops_at_first_failure_witness :
  is_inr (fst (compare_loop (failing_on 1) (TSPSolver_init ∅ D3) 10 5 [0] ∅ w0)) ∧
  compare_algorithms (failing_on 1) (TSPSolver_init ∅ D3) [0; 1; 2] 10 5 w0
    = (inl (LibraryError "ValueError"),
       entering "Genetic Algorithm (GA)" 1 10 5
         (snd (compare_loop (failing_on 1) (TSPSolver_init ∅ D3) 10 5 [0] ∅ w0))).
Proof.
  destruct (compare_loop (failing_on 1) (TSPSolver_init ∅ D3) 10 5 [0] ∅ w0)
    as [[e|results1] w1] eqn:Hpre.
  - exfalso. vm_compute in Hpre. discriminate Hpre.
  - split; [exact I|].
    apply (compare_algorithms_stops_at_first_failure (failing_on 1)
             (TSPSolver_init ∅ D3) [0] 1 [2] 10 5 w0 w1 _ results1 _ Hpre).
    left.
    exact (parameterized_solve_cases (failing_on 1) None None 42
             "Genetic Algorithm (GA)" (TSPSolver_init ∅ D3) 1 10 5 w1).
Defined.

(** C5 as stated fails: with start cities 0 and 1 and an optimiser that
    raises for start city 0, [compare_algorithms] raises; only the banner of
    the first run has been printed, and the runs of start city 1, which
    succeed on their own, are never started. *)
Lemma compare_algorithms_aborts_sibling_runs :
  fst (compare_algorithms (failing_on 0) (TSPSolver_init ∅ D3) [0; 1] 10 5 w0)
    = inl (LibraryError "ValueError") ∧
  stdout (snd (compare_algorithms (failing_on 0) (TSPSolver_init ∅ D3)
                 [0; 1] 10 5 w0))
    = [Text (newline +:+ rule);
       Text "Solving TSP with Genetic Algorithm (GA)";
       StartingCity 1; PopulationSize 10 5; Text rule] ∧
  report (solve_with_genetic_algorithm (failing_on 0) (TSPSolver_init ∅ D3)
            1 10 5 w0) = inr ([1; 0; 2; 1], 17%Q, 5) ∧
  report (solve_with_modified_ga (failing_on 0) (TSPSolver_init ∅ D3)
            1 10 5 w0) = inr ([1; 0; 2; 1], 17%Q, 5).
Proof. split_and!; vm_compute; reflexivity. Qed.

(** * Further properties of the solver *)

(** ** Legs of the complete tour *)

Lemma legs_cons D a l :
  legs D (a :: l) =
  match head l with
  | Some b => oadd (dist D a b) (legs D l)
  | None => Some 0%Q
  end.
Proof. by destruct l. Qed.

Lemma closed_tour_length_legs D s cs :
  cs ≠ [] →
  opt_Qeq (closed_tour_length D s cs) (legs D ([s] ++ cs ++ [s])).
Proof.
  intros Hne. unfold closed_tour_length.
  destruct cs as [|cl l _] using rev_ind; [done|].
  rewrite last_snoc. simpl app.
  rewrite legs_cons.
  destruct (head (l ++ [cl])) as [c0|] eqn:Hc0;
    [|by apply head_None, app_eq_nil in Hc0 as [_ ?]].
  rewrite head_app, Hc0. simpl.
  rewrite <- app_assoc. change ([cl] ++ [s]) with [cl; s].
  rewrite legs_snoc. by rewrite oadd_assoc.
Qed.

(** ** A run that returns *)

Lemma parameterized_solve_inr minimize pc pm seed label self s pop n w r w' :
  parameterized_solve minimize pc pm seed label self s pop n w = (inr r, w') →
  ∃ res x fitness cs d,
    minimize (TSPProblem_init (solver_distance_matrix self) s)
      (algorithm_of pop pc pm) (get_termination "n_gen" n) seed false = inr res ∧
    X res = Some x ∧ F res = Some fitness ∧
    mapped_tour (TSPProblem_init (solver_distance_matrix self) s) x = Some cs ∧
    Py.index fitness 0 = Some d ∧
    r = {| r_algorithm := label;
           r_start_city := s;
           r_tour := [s] ++ cs ++ [s];
           r_distance := d;
           r_execution_time := (clock w (S (ticks w)) - clock w (ticks w))%Q;
           r_generations := n |} ∧
    w' = returning label r pop w.
Proof.
  unfold parameterized_solve, algorithm_of, complete_tour.
  unfold mbind at 1 2 3 4 5 6 7. unfold M_bind at 1 2 3 4 5 6 7.
  unfold print, time_time. simpl.
  destruct (minimize _ _ _ _ _) as [e|res] eqn:Hm; simpl; [done|].
  unfold mbind at 1. unfold M_bind at 1. simpl.
  destruct (X res) as [x|] eqn:HX; simpl; [|done].
  unfold mbind at 1. unfold M_bind at 1. simpl.
  destruct (mapped_tour (TSPProblem_init (solver_distance_matrix self) s) x)
    as [cs|] eqn:Hcs; simpl; [|done].
  unfold mbind at 1. unfold M_bind at 1. simpl.
  destruct (F res) as [fitness|] eqn:HF; simpl; [|done].
  unfold mbind at 1. unfold M_bind at 1. simpl.
  destruct (Py.index fitness 0) as [d|] eqn:Hd; simpl; [|done].
  intros [= <- <-]. exists res, x, fitness, cs, d. split_and!; [done..|].
  unfold returning. simpl. by rewrite <- !app_assoc.
Qed.

Lemma solve_inr minimize self s pop n w r w' :
  solve_with_genetic_algorithm minimize self s pop n w = (inr r, w') ∨
  solve_with_modified_ga minimize self s pop n w = (inr r, w') →
  ∃ pc pm seed label res x fitness cs d,
    minimize (TSPProblem_init (solver_distance_matrix self) s)
      (algorithm_of pop pc pm) (get_termination "n_gen" n) seed false = inr res ∧
    X res = Some x ∧ F res = Some fitness ∧
    mapped_tour (TSPProblem_init (solver_distance_matrix self) s) x = Some cs ∧
    Py.index fitness 0 = Some d ∧
    r = {| r_algorithm := label;
           r_start_city := s;
           r_tour := [s] ++ cs ++ [s];
           r_distance := d;
           r_execution_time := (clock w (S (ticks w)) - clock w (ticks w))%Q;
           r_generations := n |} ∧
    w' = returning label r pop w.
Proof.
  rewrite solve_with_genetic_algorithm_param, solve_with_modified_ga_param.
  intros [H|H];
    apply parameterized_solve_inr in H as (res & x & fitness & cs & d & H);
    eauto 12.
Qed.

(** X1. A run that returns gives back the start city and the generation
    count it was called with, a tour that starts and ends with the start
    city, and as execution time the second reading of the clock minus the
    first; it has read the clock twice and printed nine lines, the last
    three showing the returned distance, the returned execution time and
    the returned tour with every index raised by one. *)
Theorem returning_run_postcondition (minimize : Minimize) (self : TSPSolver)
    (s pop_size n_gen : Z) (w w' : world) (r : RunResult) :
  solve_with_genetic_algorithm minimize self s pop_size n_gen w = (inr r, w') ∨
  solve_with_modified_ga minimize self s pop_size n_gen w = (inr r, w') →
  r_start_city r = s ∧ r_generations r = n_gen ∧
  head (r_tour r) = Some s ∧ last (r_tour r) = Some s ∧
  (2 <= length (r_tour r))%nat ∧
  r_execution_time r = (clock w (S (ticks w)) - clock w (ticks w))%Q ∧
  w' = returning (r_algorithm r) r pop_size w.
Proof.
  intros (pc & pm & seed & label & res & x & fitness & cs & d &
          _ & _ & _ & _ & _ & -> & ->)%solve_inr.
  simpl. split_and!; try done.
  - rewrite app_comm_cons. apply last_snoc.
  - rewrite length_app. simpl. lia.
Qed.

Lemma returning_run_postcondition_witness :
  ∃ r w',
    solve_with_genetic_algorithm identity_optimiser (TSPSolver_init ∅ D3)
      1 10 5 w0 = (inr r, w') ∧
    r_execution_time r = (clock w0 1 - clock w0 0)%Q ∧
    w' = returning (r_algorithm r) r 10 w0.
Proof.
  destruct (solve_with_genetic_algorithm identity_optimiser
              (TSPSolver_init ∅ D3) 1 10 5 w0) as [[e|r] w'] eqn:Hrun.
  - exfalso. vm_compute in Hrun. discriminate Hrun.
  - exists r, w'. split; [reflexivity|].
    destruct (returning_run_postcondition identity_optimiser
                (TSPSolver_init ∅ D3) 1 10 5 w0 w' r (or_introl Hrun))
      as (_ & _ & _ & _ & _ & Htime & Hw).
    split; [exact Htime|exact Hw].
Defined.

(** X2. When the optimiser returns a permutation with the fitness that
    [_evaluate] gives it, the distance a run reports is the length of the
    tour it reports: the sum of [D[a][b]] over the consecutive cities of
    the complete tour. *)
Theorem reported_distance_is_tour_length (minimize : Minimize)
    (self : TSPSolver) (s pop_size n_gen : Z) (w w' : world) (r : RunResult) :
  returns_evaluated_permutation minimize →
  solve_with_genetic_algorithm minimize self s pop_size n_gen w = (inr r, w') ∨
  solve_with_modified_ga minimize self s pop_size n_gen w = (inr r, w') →
  opt_Qeq (legs (solver_distance_matrix self) (r_tour r)) (Some (r_distance r)).
Proof.
  intros Hcontract
    (pc & pm & seed & label & res & x & fitness & cs & d &
     Hm & HX & HF & Hcs & Hd & -> & _)%solve_inr.
  simpl r_tour. simpl r_distance.
  destruct (Hcontract _ _ _ _ _ _ Hm) as (x' & f & HX' & HF' & _ & Hf).
  rewrite HX in HX'. injection HX' as <-.
  rewrite HF in HF'. injection HF' as ->.
  injection Hd as <-.
  pose proof (evaluate_closed_tour_length
                (TSPProblem_init (solver_distance_matrix self) s) x) as Hev.
  rewrite Hf, Hcs in Hev. simpl in Hev.
  assert (cs ≠ []) as Hne by (intros ->; inversion Hev).
  by rewrite <- (closed_tour_length_legs _ s cs Hne).
Qed.

Lemma reported_distance_is_tour_length_witness :
  returns_evaluated_permutation identity_optimiser ∧
  ∃ r w',
    solve_with_modified_ga identity_optimiser (TSPSolver_init ∅ D3)
      1 10 5 w0 = (inr r, w') ∧
    opt_Qeq (legs D3 (r_tour r)) (Some (r_distance r)).
Proof.
  split; [exact identity_optimiser_contract|].
  destruct (solve_with_modified_ga identity_optimiser
              (TSPSolver_init ∅ D3) 1 10 5 w0) as [[e|r] w'] eqn:Hrun.
  - exfalso. vm_compute in Hrun. discriminate Hrun.
  - exists r, w'. split; [reflexivity|].
    exact (reported_distance_is_tour_length identity_optimiser
             (TSPSolver_init ∅ D3) 1 10 5 w0 w' r
             identity_optimiser_contract (or_intror Hrun)).
Defined.

Lemma returned_tour_permutation (minimize : Minimize)
    (self : TSPSolver) (s pop_size n_gen : Z) (w w' : world) (r : RunResult) :
  returns_permutation minimize →
  0 <= s < Z.of_nat (length (solver_distance_matrix self)) →
  solve_with_genetic_algorithm minimize self s pop_size n_gen w = (inr r, w') ∨
  solve_with_modified_ga minimize self s pop_size n_gen w = (inr r, w') →
  ∃ cs, r_tour r = [s] ++ cs ++ [s] ∧
        s :: cs ≡ₚ seqZ 0 (Z.of_nat (length (solver_distance_matrix self))).
Proof.
  intros Hcontract Hs
    (pc & pm & seed & label & res & x & fitness & cs & d &
     Hm & HX & _ & Hcs & _ & -> & _)%solve_inr.
  exists cs. split; [done|].
  destruct (Hcontract _ _ _ _ _ _ Hm) as (x' & HX' & Hperm).
  rewrite HX in HX'. injection HX' as <-.
  destruct (mapped_tour_permutation
              (TSPProblem_init (solver_distance_matrix self) s) _ Hperm)
    as [Hmap Hp].
  rewrite Hmap in Hcs. injection Hcs as <-.
  rewrite Hp. by apply cities_to_visit_start_permutation.
Qed.

(** X3. When the optimiser returns a permutation of [0 .. n_var-1],
    whatever fitness it returns with it, and the start city is in range,
    the tour a run returns is the start city, then every other city exactly
    once, then the start city again. *)
Theorem returned_tour_visits_every_city (minimize : Minimize)
    (self : TSPSolver) (s pop_size n_gen : Z) (w w' : world) (r : RunResult) :
  returns_permutation minimize →
  0 <= s < Z.of_nat (length (solver_distance_matrix self)) →
  solve_with_genetic_algorithm minimize self s pop_size n_gen w = (inr r, w') ∨
  solve_with_modified_ga minimize self s pop_size n_gen w = (inr r, w') →
  ∃ cs, r_tour r = [s] ++ cs ++ [s] ∧
        s :: cs ≡ₚ seqZ 0 (Z.of_nat (length (solver_distance_matrix self))).
Proof. apply returned_tour_permutation. Qed.

Lemma returned_tour_visits_every_city_witness :
  returns_permutation descending_optimiser ∧
  0 <= 1 < Z.of_nat (length (solver_distance_matrix (TSPSolver_init ∅ D3))) ∧
  ∃ r w' cs,
    solve_with_genetic_algorithm descending_optimiser (TSPSolver_init ∅ D3)
      1 10 5 w0 = (inr r, w') ∧
    r_tour r = [1; 2; 0; 1] ∧ r_distance r = 0%Q ∧
    r_tour r = [1] ++ cs ++ [1] ∧ 1 :: cs ≡ₚ seqZ 0 3.
Proof.
  assert (0 <= 1 < Z.of_nat (length (solver_distance_matrix
                                       (TSPSolver_init ∅ D3)))) as Hs
    by (simpl; lia).
  split; [exact descending_optimiser_permutation|]. split; [exact Hs|].
  destruct (solve_with_genetic_algorithm descending_optimiser
              (TSPSolver_init ∅ D3) 1 10 5 w0) as [[e|r] w'] eqn:Hrun.
  - exfalso. vm_compute in Hrun. discriminate Hrun.
  - destruct (returned_tour_visits_every_city descending_optimiser
                (TSPSolver_init ∅ D3) 1 10 5 w0 w' r
                descending_optimiser_permutation Hs (or_introl Hrun))
      as (cs & Htour & Hperm).
    exists r, w', cs. split; [reflexivity|].
    assert (r_tour r = [1; 2; 0; 1] ∧ r_distance r = 0%Q) as [Ht Hd]
      by (vm_compute in Hrun; injection Hrun as <- _; split; reflexivity).
    split; [exact Ht|]. split; [exact Hd|].
    split; [exact Htour|exact Hperm].
Defined.

(** ** The results collected by [compare_algorithms] *)

Lemma compare_step_inr minimize self pop n
    (rm rm' : gmap Z (gmap string RunResult)) c w w' :
  compare_step minimize self pop n rm c w = (inr rm', w') →
  ∃ ga w1 ga2,
    solve_with_genetic_algorithm minimize self c pop n w = (inr ga, w1) ∧
    solve_with_modified_ga minimize self c pop n w1 = (inr ga2, w') ∧
    rm' = <[c := <["GA2" := ga2]> (<["GA" := ga]> ∅)]> rm.
Proof.
  unfold compare_step, mbind, M_bind.
  destruct (solve_with_genetic_algorithm minimize self c pop n w)
    as [[e|ga] w1] eqn:Hga; [done|].
  destruct (solve_with_modified_ga minimize self c pop n w1)
    as [[e|ga2] w2] eqn:Hga2; [done|].
  intros [= <- <-]. exists ga, w1, ga2. split_and!; [done..|].
  by rewrite !alter_insert_eq.
Qed.

Lemma compare_loop_inr minimize self pop n cities :
  ∀ (rm rm' : gmap Z (gmap string RunResult)) w w',
  compare_loop minimize self pop n cities rm w = (inr rm', w') →
  dom rm' = dom rm ∪ list_to_set cities ∧
  (∀ c, c ∈ cities → ∃ entry, rm' !! c = Some entry ∧ run_pair c n entry) ∧
  (∀ c, c ∉ cities → rm' !! c = rm !! c) ∧
  ticks w' = (ticks w + 4 * length cities)%nat.
Proof.
  induction cities as [|c cities IH]; intros rm rm' w w'; cbn [compare_loop].
  - intros [= <- <-]. split_and!.
    + by rewrite list_to_set_nil, (right_id_L ∅ (∪)).
    + intros c Hc. by apply elem_of_nil in Hc.
    + done.
    + simpl. lia.
  - unfold mbind, M_bind.
    destruct (compare_step minimize self pop n rm c w) as [[e|rm1] w1] eqn:Hstep;
      [done|].
    intros (Hdom & Hin & Hout & Hticks)%IH.
    apply compare_step_inr in Hstep as (ga & w2 & ga2 & Hga & Hga2 & ->).
    pose proof (solve_inr _ _ _ _ _ _ _ _ (or_introl Hga))
      as (? & ? & ? & ? & ? & ? & ? & ? & ? & _ & _ & _ & _ & _ & Ega & Ew2).
    pose proof (solve_inr _ _ _ _ _ _ _ _ (or_intror Hga2))
      as (? & ? & ? & ? & ? & ? & ? & ? & ? & _ & _ & _ & _ & _ & Ega2 & Ew1).
    assert (run_pair c n (<["GA2" := ga2]> (<["GA" := ga]> ∅))) as Hpair.
    { exists ga, ga2. split; [done|].
      rewrite solve_with_genetic_algorithm_param in Hga.
      rewrite solve_with_modified_ga_param in Hga2.
      apply parameterized_solve_inr in Hga
        as (? & ? & ? & ? & ? & _ & _ & _ & _ & _ & -> & _).
      apply parameterized_solve_inr in Hga2
        as (? & ? & ? & ? & ? & _ & _ & _ & _ & _ & -> & _).
      done. }
    split_and!.
    + rewrite Hdom, dom_insert_L, list_to_set_cons.
      by rewrite (comm_L (∪) {[c]} (dom rm)), (assoc_L (∪)).
    + intros c' Hc'. destruct (decide (c' ∈ cities)) as [|Hnin]; [by apply Hin|].
      apply elem_of_cons in Hc' as [->|]; [|done].
      rewrite (Hout c Hnin), lookup_insert_eq. eauto.
    + intros c' Hc'. apply not_elem_of_cons in Hc' as [Hne Hnin].
      by rewrite (Hout c' Hnin), lookup_insert_ne.
    + rewrite Hticks, Ew1, Ew2. simpl. lia.
Qed.

Lemma compare_algorithms_inr (minimize : Minimize)
    (self self' : TSPSolver) (start_cities : list Z) (pop_size n_gen : Z)
    (w w' : world) (rm : gmap Z (gmap string RunResult)) :
  compare_algorithms minimize self start_cities pop_size n_gen w
    = (inr (self', rm), w') →
  results self' = rm ∧
  city_coords self' = city_coords self ∧
  solver_distance_matrix self' = solver_distance_matrix self ∧
  solver_n_cities self' = solver_n_cities self ∧
  dom rm = list_to_set start_cities ∧
  (∀ c, c ∈ start_cities →
        ∃ entry, rm !! c = Some entry ∧ run_pair c n_gen entry) ∧
  ticks w' = (ticks w + 4 * length start_cities)%nat.
Proof.
  unfold compare_algorithms, mbind, M_bind.
  destruct (compare_loop minimize self pop_size n_gen start_cities ∅ w)
    as [[e|rm1] w1] eqn:Hloop; [done|].
  intros [= <- <- <-]. simpl.
  apply compare_loop_inr in Hloop as (Hdom & Hin & _ & Hticks).
  split_and!; try done. by rewrite Hdom, dom_empty_L, (left_id_L ∅ (∪)).
Qed.

(** X4. When [compare_algorithms] returns, the keys of the results are
    exactly the listed start cities; the entry of each holds exactly a "GA"
    and a "GA2" result, each with that start city, its own label and the
    generation count of the call; the same mapping is stored in
    [self.results] and the rest of the solver is unchanged; and every
    listed start city, repeated ones included, has been run twice (four
    readings of the clock each). *)
Theorem compare_algorithms_collects_every_run (minimize : Minimize)
    (self self' : TSPSolver) (start_cities : list Z) (pop_size n_gen : Z)
    (w w' : world) (rm : gmap Z (gmap string RunResult)) :
  compare_algorithms minimize self start_cities pop_size n_gen w
    = (inr (self', rm), w') →
  results self' = rm ∧
  city_coords self' = city_coords self ∧
  solver_distance_matrix self' = solver_distance_matrix self ∧
  solver_n_cities self' = solver_n_cities self ∧
  dom rm = list_to_set start_cities ∧
  (∀ c, c ∈ start_cities →
        ∃ entry, rm !! c = Some entry ∧ run_pair c n_gen entry) ∧
  ticks w' = (ticks w + 4 * length start_cities)%nat.
Proof. apply compare_algorithms_inr. Qed.

Lemma compare_algorithms_collects_every_run_witness :
  ∃ self' rm w',
    compare_algorithms identity_optimiser (TSPSolver_init ∅ D3) [0; 2; 0]
      10 5 w0 = (inr (self', rm), w') ∧
    dom rm = list_to_set [0; 2; 0] ∧ ticks w' = 12%nat.
Proof.
  destruct (compare_algorithms identity_optimiser (TSPSolver_init ∅ D3)
              [0; 2; 0] 10 5 w0) as [[e|[self' rm]] w'] eqn:Hrun.
  - exfalso. vm_compute in Hrun. discriminate Hrun.
  - exists self', rm, w'. split; [reflexivity|].
    destruct (compare_algorithms_collects_every_run identity_optimiser
                (TSPSolver_init ∅ D3) self' [0; 2; 0] 10 5 w0 w' rm Hrun)
      as (_ & _ & _ & _ & Hdom & _ & Hticks).
    split; [exact Hdom|exact Hticks].
Defined.

(** * Further properties of the encoding *)

Lemma opt_Qeq_None a : opt_Qeq a None → a = None.
Proof. by inversion 1. Qed.

Lemma dist_negative_row D a b :
  - Z.of_nat (length D) <= a < 0 →
  dist D a b = dist D (Z.of_nat (length D) + a) b.
Proof.
  intros Ha. unfold dist.
  by rewrite (index_negative D a), (index_nonneg D (_ + a)) by lia.
Qed.

Lemma dist_negative_column D a b :
  square D →
  - Z.of_nat (length D) <= b < 0 →
  dist D a b = dist D a (Z.of_nat (length D) + b).
Proof.
  intros HD Hb. unfold dist.
  destruct (Py.index D a) as [row|] eqn:Hrow; [|done]. simpl.
  apply index_elem_of in Hrow.
  unfold square in HD. rewrite Forall_forall in HD.
  rewrite <- (HD row Hrow) in *.
  by rewrite (index_negative row b), (index_nonneg row (_ + b)) by lia.
Qed.

(** X5. A start city in [-N .. -1] is not rejected either: on a square
    matrix the distances of city [N + s] are used for it (a negative index
    counts from the end), while city [N + s] stays among the cities to
    visit, so the value is the length of a closed walk from city [N + s]
    through the mapped cities. *)
Theorem negative_start_city_wraps (D : matrix) (s : Z) (x : list Z) :
  square D →
  - Z.of_nat (length D) <= s < 0 →
  Z.of_nat (length D) + s ∈ cities_to_visit (TSPProblem_init D s) ∧
  opt_Qeq (_evaluate (TSPProblem_init D s) x)
    (cs ← mapped_tour (TSPProblem_init D s) x;
     closed_tour_length D (Z.of_nat (length D) + s) cs).
Proof.
  intros HD Hs. split.
  - apply elem_of_cities_to_visit. lia.
  - rewrite evaluate_closed_tour_length.
    destruct (mapped_tour (TSPProblem_init D s) x) as [cs|]; [|constructor].
    simpl. unfold closed_tour_length.
    destruct (head cs) as [c0|]; [|constructor].
    destruct (last cs) as [cl|]; [|constructor]. simpl.
    rewrite (dist_negative_row D s c0 Hs), (dist_negative_column D cl s HD Hs).
    reflexivity.
Qed.

Lemma negative_start_city_wraps_witness :
  square D3 ∧ - Z.of_nat (length D3) <= -1 < 0 ∧
  opt_Qeq (_evaluate (TSPProblem_init D3 (-1)) [2; 0; 1])
          (closed_tour_length D3 2 [2; 0; 1]).
Proof.
  assert (- Z.of_nat (length D3) <= -1 < 0) as Hs by (simpl; lia).
  split; [exact square_D3|]. split; [exact Hs|].
  exact (proj2 (negative_start_city_wraps D3 (-1) [2; 0; 1] square_D3 Hs)).
Defined.

Lemma evaluate_beyond_matrix D s x :
  s < - Z.of_nat (length D) ∨ Z.of_nat (length D) <= s →
  _evaluate (TSPProblem_init D s) x = None.
Proof.
  intros Hs. apply opt_Qeq_None. rewrite evaluate_closed_tour_length.
  destruct (mapped_tour (TSPProblem_init D s) x) as [cs|]; [|constructor].
  simpl. unfold closed_tour_length.
  destruct (head cs) as [c0|]; [|constructor].
  destruct (last cs) as [cl|]; [|constructor]. simpl.
  rewrite (dist_None_l D s c0) by lia. constructor.
Qed.

(** X6. A start city below [-N] or from [N] on passes the constructor, but
    no sequence can be evaluated for it: [_evaluate] raises IndexError on
    every [x]. *)
Theorem start_city_beyond_matrix_never_evaluates (D : matrix) (s : Z)
    (x : list Z) :
  s < - Z.of_nat (length D) ∨ Z.of_nat (length D) <= s →
  _evaluate (TSPProblem_init D s) x = None.
Proof. apply evaluate_beyond_matrix. Qed.

Lemma start_city_beyond_matrix_never_evaluates_witness :
  (3 < - Z.of_nat (length D3) ∨ Z.of_nat (length D3) <= 3) ∧
  _evaluate (TSPProblem_init D3 3) [2; 0; 1] = None.
Proof.
  assert (3 < - Z.of_nat (length D3) ∨ Z.of_nat (length D3) <= 3) as Hs
    by (right; simpl; lia).
  split; [exact Hs|].
  exact (start_city_beyond_matrix_never_evaluates D3 3 [2; 0; 1] Hs).
Defined.

(** X7. With fewer than two cities and a start city that is not negative,
    [_evaluate] raises IndexError on every [x]: there is no city to visit,
    or no row for the start city. *)
Theorem fewer_than_two_cities_never_evaluate (D : matrix) (s : Z)
    (x : list Z) :
  (length D <= 1)%nat → 0 <= s →
  _evaluate (TSPProblem_init D s) x = None.
Proof.
  intros HD Hs.
  destruct (decide (Z.of_nat (length D) <= s)) as [Hge|Hlt].
  { apply evaluate_beyond_matrix; auto. }
  assert (cities_to_visit (TSPProblem_init D s) = []) as Hctv.
  { rewrite cities_to_visit_valid by lia.
    assert (s = 0) as -> by lia.
    replace (Z.of_nat (length D)) with 1 by lia. reflexivity. }
  apply opt_Qeq_None. rewrite evaluate_closed_tour_length.
  unfold mapped_tour. rewrite Hctv.
  destruct x as [|i x]; [constructor|].
  simpl. assert (Py.index (@nil Z) i = None) as ->
    by (apply index_None; simpl; lia).
  constructor.
Qed.

Lemma fewer_than_two_cities_never_evaluate_witness :
  (length [[0%Q]] <= 1)%nat ∧ 0 <= 0 ∧
  _evaluate (TSPProblem_init [[0%Q]] 0) [] = None ∧
  _evaluate (TSPProblem_init [[0%Q]] 0) [0] = None.
Proof.
  assert (length [[0%Q]] <= 1)%nat as HD by (simpl; lia).
  assert (0 <= 0) as Hs by lia.
  split; [exact HD|]. split; [exact Hs|]. split.
  - exact (fewer_than_two_cities_never_evaluate [[0%Q]] 0 [] HD Hs).
  - exact (fewer_than_two_cities_never_evaluate [[0%Q]] 0 [0] HD Hs).
Defined.

(** ** Two cities *)

Lemma cities_to_visit_two D s :
  length D = 2%nat → 0 <= s < 2 →
  cities_to_visit (TSPProblem_init D s) = [1 - s].
Proof.
  intros HD Hs. rewrite cities_to_visit_valid by (rewrite HD; lia).
  rewrite HD. assert (s = 0 ∨ s = 1) as [-> | ->] by lia; reflexivity.
Qed.

Lemma evaluate_two_cities D s :
  length D = 2%nat → 0 <= s < 2 →
  opt_Qeq (_evaluate (TSPProblem_init D s) [0])
          (oadd (dist D s (1 - s)) (dist D (1 - s) s)).
Proof.
  intros HD Hs.
  rewrite evaluate_closed_tour_length. unfold mapped_tour.
  rewrite (cities_to_visit_two D s HD Hs). simpl.
  unfold closed_tour_length. simpl.
  rewrite <- oadd_assoc. apply oadd_proper; [done|]. apply oadd_0_l.
Qed.

(** X18. With two cities and a start city [s] in range, the encoding
    leaves nothing to choose: [cities_to_visit] is [[o]] with [o] the other
    city, [n_var] is 1, the only permutation is [[0]], it decodes to
    [[s, o, s]] and evaluates, in exact arithmetic, to
    [D[s][o] + D[o][s]], which is twice [D[s][o]] on a symmetric matrix.
    Whether a run on two cities returns is the optimiser's affair and is
    not part of the statement. *)
Theorem two_cities_encoding (D : matrix) (s : Z) :
  length D = 2%nat → 0 <= s < 2 →
  cities_to_visit (TSPProblem_init D s) = [1 - s] ∧
  n_var (TSPProblem_init D s) = 1 ∧
  (∀ x, is_permutation (n_var (TSPProblem_init D s)) x ↔ x = [0]) ∧
  complete_tour (TSPProblem_init D s) s [0] = Some [s; 1 - s; s] ∧
  opt_Qeq (_evaluate (TSPProblem_init D s) [0])
          (oadd (dist D s (1 - s)) (dist D (1 - s) s)) ∧
  (symmetric D →
   opt_Qeq (_evaluate (TSPProblem_init D s) [0])
           (oadd (dist D s (1 - s)) (dist D s (1 - s)))).
Proof.
  intros HD Hs.
  pose proof (cities_to_visit_two D s HD Hs) as Hctv.
  assert (n_var (TSPProblem_init D s) = 1) as Hn.
  { change (n_var (TSPProblem_init D s))
      with (Z.of_nat (length (cities_to_visit (TSPProblem_init D s)))).
    by rewrite Hctv. }
  split_and!.
  - done.
  - done.
  - intros x. rewrite Hn. unfold is_permutation. split.
    + intros Hx. by apply Permutation_singleton_r in Hx.
    + by intros ->.
  - unfold complete_tour, mapped_tour. by rewrite Hctv.
  - by apply evaluate_two_cities.
  - intros Hsym. rewrite (evaluate_two_cities D s HD Hs).
    apply oadd_proper; [done|]. symmetry. apply Hsym.
Qed.

Lemma two_cities_encoding_witness :
  length [[0; 3]; [3; 0]]%Q = 2%nat ∧ 0 <= 1 < 2 ∧
  complete_tour (TSPProblem_init [[0; 3]; [3; 0]]%Q 1) 1 [0] = Some [1; 0; 1] ∧
  opt_Qeq (_evaluate (TSPProblem_init [[0; 3]; [3; 0]]%Q 1) [0])
          (Some (3 + 3)%Q).
Proof.
  assert (0 <= 1 < 2) as Hs by lia.
  split; [reflexivity|]. split; [exact Hs|].
  destruct (two_cities_encoding [[0; 3]; [3; 0]]%Q 1 eq_refl Hs)
    as (_ & _ & _ & Htour & Hev & _).
  split; [exact Htour|exact Hev].
Defined.

Lemma NoDup_cities_to_visit D s : NoDup (cities_to_visit (TSPProblem_init D s)).
Proof. simpl. apply NoDup_filter, NoDup_seqZ. Qed.

Lemma fmap_city_at_inj D s x : ∀ y,
  Forall (λ i, 0 <= i < n_var (TSPProblem_init D s)) x →
  Forall (λ i, 0 <= i < n_var (TSPProblem_init D s)) y →
  city_at (TSPProblem_init D s) <$> x = city_at (TSPProblem_init D s) <$> y →
  x = y.
Proof.
  induction x as [|i x IH]; intros [|j y] Hx Hy Heq; try done.
  apply Forall_cons in Hx as [Hi Hx]. apply Forall_cons in Hy as [Hj Hy].
  injection Heq as Hij Heq. f_equal; [|by apply IH].
  unfold city_at in Hij.
  change (n_var (TSPProblem_init D s))
    with (Z.of_nat (length (cities_to_visit (TSPProblem_init D s)))) in Hi, Hj.
  destruct (lookup_lt_is_Some_2 (cities_to_visit (TSPProblem_init D s))
              (Z.to_nat i)) as [a Ha]; [lia|].
  destruct (lookup_lt_is_Some_2 (cities_to_visit (TSPProblem_init D s))
              (Z.to_nat j)) as [b Hb]; [lia|].
  rewrite Ha, Hb in Hij. simpl in Hij. subst b.
  pose proof (NoDup_lookup _ _ _ _ (NoDup_cities_to_visit D s) Ha Hb). lia.
Qed.

(** X8. Two sequences of indices in [0 .. n_var-1] that decode to the same
    complete tour are the same sequence: the cities to visit are pairwise
    different, so no two indices name the same city. *)
Theorem decoding_is_injective (D : matrix) (s : Z) (x y : list Z) :
  Forall (λ i, 0 <= i < n_var (TSPProblem_init D s)) x →
  Forall (λ i, 0 <= i < n_var (TSPProblem_init D s)) y →
  complete_tour (TSPProblem_init D s) s x
    = complete_tour (TSPProblem_init D s) s y →
  x = y.
Proof.
  intros Hx Hy. unfold complete_tour.
  rewrite !mapped_tour_in_range by done. simpl.
  intros [= Heq]. apply app_inv_tail in Heq.
  by apply (fmap_city_at_inj D s).
Qed.

Lemma decoding_is_injective_witness :
  Forall (λ i, 0 <= i < n_var (TSPProblem_init D3 1)) [1; 0] ∧
  complete_tour (TSPProblem_init D3 1) 1 [1; 0]
    = complete_tour (TSPProblem_init D3 1) 1 [1; 0] ∧
  [1; 0] = [1; 0].
Proof.
  assert (Forall (λ i, 0 <= i < n_var (TSPProblem_init D3 1)) [1; 0]) as Hx
    by (repeat constructor; simpl; lia).
  split; [exact Hx|]. split; [reflexivity|].
  exact (decoding_is_injective D3 1 [1; 0] [1; 0] Hx Hx eq_refl).
Defined.

(** * The report *)

Lemma getitem_cons {V} (d : list (Z * V)) k' v' k :
  getitem ((k', v') :: d) k = if decide (k' = k) then inr v' else getitem d k.
Proof.
  unfold getitem. cbn [list_find]. simpl.
  destruct (decide (k' = k)); [done|].
  by destruct (list_find _ d) as [[i [k0 v0]]|].
Qed.

Lemma getitem_elem_of {V} (d : list (Z * V)) k v :
  NoDup (fst <$> d) → (k, v) ∈ d → getitem d k = inr v.
Proof.
  induction d as [|[k' v'] d IH]; intros Hnd Hin; [by apply elem_of_nil in Hin|].
  rewrite getitem_cons. rewrite fmap_cons in Hnd.
  apply NoDup_cons in Hnd as [Hk' Hnd].
  apply elem_of_cons in Hin as [[= -> ->]|Hin].
  - by rewrite decide_True.
  - rewrite decide_False; [by apply IH|].
    intros ->. apply Hk'. apply list_elem_of_fmap. by exists (k, v).
Qed.

Lemma entries_cons c entry (l : list (Z * gmap string RunResult)) :
  entries ((c, entry) :: l) =
  omap (λ algo, (λ r, (c, algo, r)) <$> entry !! algo) ["GA"; "GA2"]
  ++ entries l.
Proof. done. Qed.

Lemma for_each_cons {A B} (body : B → A → report_exn + B) a l b :
  for_each body (a :: l) b = b' ← body b a; for_each body l b'.
Proof. done. Qed.

Lemma best_step_found results c entry algo r st :
  getitem results c = inr entry → entry !! algo = Some r →
  best_step results c st algo = inr (keep_best st (c, algo, r)).
Proof.
  intros Hc Hr. unfold best_step, getalgo, keep_best. rewrite Hc. simpl.
  rewrite Hr. simpl. by destruct (better _ _).
Qed.

Lemma best_steps_found results c entry ga ga2 st :
  getitem results c = inr entry →
  entry !! "GA" = Some ga → entry !! "GA2" = Some ga2 →
  for_each (best_step results c) ["GA"; "GA2"] st
  = inr (foldl keep_best st [(c, "GA", ga); (c, "GA2", ga2)]).
Proof.
  intros Hc Hga Hga2. rewrite !for_each_cons.
  rewrite (best_step_found _ _ _ _ _ _ Hc Hga). simpl.
  by rewrite (best_step_found _ _ _ _ _ _ Hc Hga2).
Qed.

Lemma find_best_complete (results l : list (Z * gmap string RunResult)) : ∀ st,
  (∀ c entry, (c, entry) ∈ l → getitem results c = inr entry) →
  complete l →
  for_each (λ st start_city,
              for_each (best_step results start_city) ["GA"; "GA2"] st)
    (fst <$> l) st
  = inr (foldl keep_best st (entries l)).
Proof.
  induction l as [|[c entry] l IH]; intros st Hget Hl; [done|].
  apply Forall_cons in Hl as [[[ga Hga] [ga2 Hga2]] Hl]. simpl in Hga, Hga2.
  rewrite entries_cons, foldl_app, fmap_cons, for_each_cons.
  rewrite (best_steps_found results c entry ga ga2) by (done || by apply Hget; left).
  simpl omap. rewrite Hga, Hga2. simpl.
  apply IH; [intros; apply Hget; by right|done].
Qed.

Lemma foldl_keep_best_first_minimum es :
  let st := foldl keep_best (None, None) es in
  match st.2 with
  | None => es = [] ∧ st.1 = None
  | Some e =>
      st.1 = Some (r_distance e.2) ∧
      ∃ pre post, es = pre ++ e :: post ∧
        Forall (λ e', (r_distance e.2 < r_distance e'.2)%Q) pre ∧
        Forall (λ e', (r_distance e.2 <= r_distance e'.2)%Q) post
  end.
Proof.
  induction es as [|e es IH] using rev_ind; [done|].
  rewrite foldl_app. cbn [foldl]. cbn zeta in IH.
  destruct (foldl keep_best (None, None) es) as [bd [b|]]; cbn [fst snd] in *.
  - destruct IH as (-> & pre & post & -> & Hpre & Hpost).
    unfold keep_best, better. cbn [fst snd].
    destruct (Qlt_le_dec (r_distance e.2) (r_distance b.2)) as [Hlt|Hle];
      cbn [fst snd].
    + split; [done|]. exists (pre ++ b :: post), []. split; [done|].
      split; [|constructor].
      apply Forall_app. split; [|apply Forall_cons; split].
      * eapply Forall_impl; [exact Hpre|]. intros e' He'. simpl in *.
        eapply Qlt_trans; [exact Hlt|exact He'].
      * exact Hlt.
      * eapply Forall_impl; [exact Hpost|]. intros e' He'. simpl in *.
        eapply Qlt_le_trans; [exact Hlt|exact He'].
    + split; [done|]. exists pre, (post ++ [e]).
      split; [by rewrite <- app_assoc|]. split; [done|].
      apply Forall_app. split; [done|]. by constructor.
  - destruct IH as [-> ->]. unfold keep_best, better. cbn [fst snd].
    split; [done|]. exists [], []. split; [done|]. split; constructor.
Qed.

Lemma find_best_first_minimum
    (results : list (Z * gmap string RunResult)) :
  NoDup (fst <$> results) →
  complete results →
  ∃ st, find_best results = inr st ∧
    match st.2 with
    | None => results = [] ∧ st.1 = None
    | Some e =>
        st.1 = Some (r_distance e.2) ∧
        ∃ pre post, entries results = pre ++ e :: post ∧
          Forall (λ e', (r_distance e.2 < r_distance e'.2)%Q) pre ∧
          Forall (λ e', (r_distance e.2 <= r_distance e'.2)%Q) post
    end.
Proof.
  intros Hnd Hcomplete. eexists. split.
  - unfold find_best. apply find_best_complete; [|done].
    intros c entry Hin. by apply getitem_elem_of.
  - pose proof (foldl_keep_best_first_minimum (entries results)) as H.
    cbn zeta in H.
    destruct (foldl keep_best (None, None) (entries results)) as [bd [b|]];
      cbn [fst snd] in *; [done|].
    destruct H as [Hnil ->]. split; [|done].
    destruct results as [|[c entry] results]; [done|].
    apply Forall_cons in Hcomplete as [[[ga Hga] _] _]. simpl in Hga.
    rewrite entries_cons in Hnil. simpl in Hnil. by rewrite Hga in Hnil.
Qed.

(** X9. On results whose distances are all finite (neither [inf] nor
    [nan]: the distances of the model are rationals) and whose entries all
    hold a "GA" and a "GA2" result, the search for the best result finds
    nothing exactly when there are no results, and otherwise finds the
    first entry of least distance in the order of the search (keys in
    insertion order, "GA" before "GA2"): every entry before it is strictly
    longer, none after it is shorter.  The first comparison of the search,
    [distance < float('inf')], is True of a double exactly when it is
    neither [nan] nor [inf], so of every finite distance. *)
Theorem find_best_is_first_minimum
    (results : list (Z * gmap string RunResult)) :
  (∀ d : float,
     Binary64.better d infinity = true ↔
     Prim2SF d ≠ S754_nan ∧ Prim2SF d ≠ S754_infinity false) ∧
  (NoDup (fst <$> results) →
   complete results →
   ∃ st, find_best results = inr st ∧
     match st.2 with
     | None => results = [] ∧ st.1 = None
     | Some e =>
         st.1 = Some (r_distance e.2) ∧
         ∃ pre post, entries results = pre ++ e :: post ∧
           Forall (λ e', (r_distance e.2 < r_distance e'.2)%Q) pre ∧
           Forall (λ e', (r_distance e.2 <= r_distance e'.2)%Q) post
     end).
Proof. split; [apply below_infinity|apply find_best_first_minimum]. Qed.

Lemma NoDup_example_results : NoDup (fst <$> example_results).
Proof.
  apply NoDup_cons. split; [|apply NoDup_singleton].
  by intros ?%list_elem_of_singleton.
Qed.

Lemma complete_example_results : complete example_results.
Proof. repeat constructor; by eexists. Qed.

Lemma find_best_is_first_minimum_witness :
  NoDup (fst <$> example_results) ∧ complete example_results ∧
  ∃ st, find_best example_results = inr st ∧
        st.2 = Some (2, "GA2", example_result 2 17).
Proof.
  split; [exact NoDup_example_results|].
  split; [exact complete_example_results|].
  destruct (proj2 (find_best_is_first_minimum example_results)
              NoDup_example_results complete_example_results)
    as (st & Hst & _).
  exists st. split; [exact Hst|].
  vm_compute in Hst. by injection Hst as <-.
Defined.

(** ** The table *)

Lemma print_results_table_unfold results out :
  print_results_table results out =
  match for_p (table_rows_of results) (merge_sort Z.le (fst <$> results))
          (out ++ [Plain (newline +:+ rule80); Plain "DETAILED RESULTS TABLE";
                   Plain (rule80 +:+ newline);
                   Plain "Start City   Algorithm Distance     Time (s)     Best Tour";
                   Plain dashes80]) with
  | (inl e, out') => (inl e, out')
  | (inr _, out') =>
      match find_best results with
      | inl e => (inl e, out' ++ [Plain rule80])
      | inr best =>
          match best.2 with
          | Some (start, algo, result) =>
              (inr (), out' ++
                 [Plain rule80; BestHeader; BestAlgorithm algo;
                  BestStartingCity (start + 1);
                  BestDistanceOf (r_distance result);
                  BestExecutionTime (r_execution_time result);
                  BestTour ((λ c, c + 1) <$> r_tour result);
                  Plain (newline +:+ rule80 +:+ newline)])
          | None => (inr (), out' ++ [Plain rule80])
          end
      end
  end.
Proof.
  unfold print_results_table.
  unfold mbind at 1 2 3 4 5 6 7. unfold P_bind at 1 2 3 4 5 6 7.
  unfold say at 1 2 3 4 5 6. unfold evaluating at 3. simpl app.
  rewrite <- !app_assoc. simpl app.
  change (for_p _ (merge_sort Z.le results.*1))
    with (for_p (table_rows_of results) (merge_sort Z.le results.*1)).
  destruct (for_p _ _ _) as [[e|[]] out']; [done|].
  destruct (find_best results) as [e|[bd [[[start algo] result]|]]];
    cbn [snd]; [done| |done].
  unfold mbind, P_bind, say. simpl. by rewrite <- !app_assoc.
Qed.

Lemma table_rows_of_complete results c entry ga ga2 out :
  getitem results c = inr entry →
  entry !! "GA" = Some ga → entry !! "GA2" = Some ga2 →
  table_rows_of results c out =
  (inr (), out ++
     [Row (c + 1) "GA" (r_distance ga) (r_execution_time ga)
        ((λ c, c + 1) <$> take 6 (r_tour ga));
      Row (c + 1) "GA2" (r_distance ga2) (r_execution_time ga2)
        ((λ c, c + 1) <$> take 6 (r_tour ga2))]).
Proof.
  intros Hc Hga Hga2. unfold table_rows_of. cbn [for_p].
  unfold mbind, P_bind, evaluating, getalgo, say. rewrite Hc, Hga, Hga2.
  simpl. by rewrite <- app_assoc.
Qed.

Lemma table_rows_of_missing results c entry out :
  getitem results c = inr entry →
  ¬ (is_Some (entry !! "GA") ∧ is_Some (entry !! "GA2")) →
  ∃ algo out', algo ∈ ["GA"; "GA2"] ∧
    table_rows_of results c out = (inl (KeyError (StrKey algo)), out').
Proof.
  intros Hc Hmiss. unfold table_rows_of. cbn [for_p].
  unfold mbind, P_bind, evaluating, getalgo, say. rewrite Hc.
  destruct (entry !! "GA") as [ga|] eqn:Hga.
  - destruct (entry !! "GA2") as [ga2|] eqn:Hga2.
    + exfalso. apply Hmiss. split; by eexists.
    + exists "GA2". eexists. split; [|done]. apply list_elem_of_further, list_elem_of_here.
  - exists "GA". eexists. split; [|done]. apply list_elem_of_here.
Qed.

Lemma table_loop_complete results ks : ∀ out,
  NoDup (fst <$> results) → complete results →
  ks ⊆ fst <$> results →
  ∃ rows, for_p (table_rows_of results) ks out = (inr (), out ++ rows) ∧
          row_ids rows = ks ≫= (λ c, [c + 1; c + 1]).
Proof.
  intros out Hnd Hcomplete. revert out.
  induction ks as [|c ks IH]; intros out Hks.
  - exists []. split; [|done]. simpl. by rewrite app_nil_r.
  - assert (c ∈ fst <$> results) as Hc by (apply Hks; left).
    apply list_elem_of_fmap in Hc as ([c' entry] & -> & Hin). simpl in *.
    unfold complete in Hcomplete. rewrite Forall_forall in Hcomplete.
    destruct (Hcomplete _ Hin) as [[ga Hga] [ga2 Hga2]]. simpl in *.
    cbn [for_p]. unfold mbind at 1. unfold P_bind at 1.
    rewrite (table_rows_of_complete results c' entry ga ga2)
      by (done || by apply getitem_elem_of).
    destruct (IH (out ++ [Row (c' + 1) "GA" (r_distance ga) (r_execution_time ga)
                            ((λ c, c + 1) <$> take 6 (r_tour ga));
                          Row (c' + 1) "GA2" (r_distance ga2) (r_execution_time ga2)
                            ((λ c, c + 1) <$> take 6 (r_tour ga2))]))
      as (rows & Hrows & Hids).
    { intros k Hk. apply Hks. by right. }
    eexists (_ :: _ :: rows). split.
    + rewrite Hrows. by rewrite <- app_assoc.
    + simpl. by rewrite Hids.
Qed.

Lemma table_loop_missing results ks : ∀ out,
  NoDup (fst <$> results) →
  ks ⊆ fst <$> results →
  (∃ c entry, c ∈ ks ∧ (c, entry) ∈ results ∧
     ¬ (is_Some (entry !! "GA") ∧ is_Some (entry !! "GA2"))) →
  ∃ algo out', algo ∈ ["GA"; "GA2"] ∧
    for_p (table_rows_of results) ks out = (inl (KeyError (StrKey algo)), out').
Proof.
  intros out Hnd. revert out.
  induction ks as [|c ks IH]; intros out Hks (c0 & entry0 & Hc0 & Hin0 & Hmiss).
  - by apply elem_of_nil in Hc0.
  - assert (c ∈ fst <$> results) as Hc by (apply Hks; left).
    apply list_elem_of_fmap in Hc as ([c' entry] & -> & Hin). simpl in *.
    pose proof (getitem_elem_of results c' entry Hnd Hin) as Hget.
    cbn [for_p]. unfold mbind at 1. unfold P_bind at 1.
    destruct (decide (is_Some (entry !! "GA") ∧ is_Some (entry !! "GA2")))
      as [[[ga Hga] [ga2 Hga2]]|Hmiss'].
    + rewrite (table_rows_of_complete results c' entry ga ga2) by done.
      apply IH; [intros k Hk; apply Hks; by right|].
      exists c0, entry0. split; [|done].
      apply elem_of_cons in Hc0 as [->|]; [|done].
      exfalso. apply Hmiss.
      assert (getitem results c' = inr entry0) as Hget0
        by by apply getitem_elem_of.
      rewrite Hget in Hget0. injection Hget0 as <-. split; by eexists.
    + destruct (table_rows_of_missing results c' entry out Hget Hmiss')
        as (algo & out' & Halgo & ->).
      by exists algo, out'.
Qed.

Lemma StronglySorted_twice ks :
  StronglySorted Z.le ks →
  StronglySorted Z.le (ks ≫= (λ c, [c + 1; c + 1])).
Proof.
  induction 1 as [|c ks Hs IH Hc]; [constructor|].
  assert (Forall (Z.le (c + 1)) (ks ≫= (λ c, [c + 1; c + 1]))) as Hle.
  { apply Forall_forall. intros k (c' & Hk & Hc')%list_elem_of_bind.
    rewrite Forall_forall in Hc. specialize (Hc c' Hc').
    rewrite !elem_of_cons, elem_of_nil in Hk. lia. }
  simpl. apply SSorted_cons; [apply SSorted_cons; [done|done]|].
  apply Forall_cons. split; [lia|done].
Qed.

Lemma print_results_table_complete (results : list (Z * gmap string RunResult))
    (out : list report_line) :
  NoDup (fst <$> results) →
  complete results →
  ∃ lines,
    print_results_table results out = (inr (), out ++ lines) ∧
    row_ids lines = merge_sort Z.le (fst <$> results) ≫= (λ c, [c + 1; c + 1]) ∧
    Sorted Z.le (row_ids lines).
Proof.
  intros Hnd Hcomplete. rewrite print_results_table_unfold.
  destruct (table_loop_complete results (merge_sort Z.le (fst <$> results))
              (out ++ [Plain (newline +:+ rule80); Plain "DETAILED RESULTS TABLE";
                       Plain (rule80 +:+ newline);
                       Plain "Start City   Algorithm Distance     Time (s)     Best Tour";
                       Plain dashes80]) Hnd Hcomplete)
    as (rows & -> & Hids).
  { intros k Hk. by rewrite merge_sort_Permutation in Hk. }
  destruct (find_best_first_minimum results Hnd Hcomplete) as (st & -> & _).
  assert (∀ tail, row_ids tail = [] →
            row_ids ([Plain (newline +:+ rule80); Plain "DETAILED RESULTS TABLE";
                      Plain (rule80 +:+ newline);
                      Plain "Start City   Algorithm Distance     Time (s)     Best Tour";
                      Plain dashes80] ++ rows ++ tail)
            = merge_sort Z.le (fst <$> results) ≫= (λ c, [c + 1; c + 1]))
    as Hall.
  { intros tail Htail. unfold row_ids in *. simpl.
    by rewrite omap_app, Htail, app_nil_r. }
  assert (Sorted Z.le (merge_sort Z.le (fst <$> results)
                         ≫= (λ c, [c + 1; c + 1]))) as Hsorted.
  { apply StronglySorted_Sorted, StronglySorted_twice.
    apply StronglySorted_merge_sort; apply _. }
  destruct st as [bd [[[start algo] result]|]]; cbn [snd];
    eexists; (split; [by rewrite <- !app_assoc|]);
    rewrite Hall by done; done.
Qed.

(** X10. On results whose entries all hold a "GA" and a "GA2" result,
    [print_results_table] raises nothing, and the rows it prints are two
    for every key, in ascending order of the start city, whatever the
    order in which the results were inserted. *)
Theorem print_results_table_rows (results : list (Z * gmap string RunResult))
    (out : list report_line) :
  NoDup (fst <$> results) →
  complete results →
  ∃ lines,
    print_results_table results out = (inr (), out ++ lines) ∧
    row_ids lines = merge_sort Z.le (fst <$> results) ≫= (λ c, [c + 1; c + 1]) ∧
    Sorted Z.le (row_ids lines).
Proof. apply print_results_table_complete. Qed.

Lemma print_results_table_rows_witness :
  NoDup (fst <$> example_results) ∧ complete example_results ∧
  ∃ lines,
    print_results_table example_results [] = (inr (), lines) ∧
    row_ids lines = [2; 2; 3; 3].
Proof.
  split; [exact NoDup_example_results|].
  split; [exact complete_example_results|].
  destruct (print_results_table_rows example_results []
              NoDup_example_results complete_example_results)
    as (lines & Hprint & Hids & _).
  exists lines. split; [exact Hprint|]. rewrite Hids. reflexivity.
Defined.

(** X11. [print_results_table] raises exactly when some entry lacks its
    "GA" or its "GA2" result, and what it raises then is the KeyError of
    one of these two keys. *)
Theorem print_results_table_raises_iff_incomplete
    (results : list (Z * gmap string RunResult)) (out : list report_line) :
  NoDup (fst <$> results) →
  (complete results ↔ fst (print_results_table results out) = inr ()) ∧
  (¬ complete results →
   ∃ algo, algo ∈ ["GA"; "GA2"] ∧
     fst (print_results_table results out) = inl (KeyError (StrKey algo))).
Proof.
  intros Hnd.
  assert (¬ complete results →
          ∃ algo, algo ∈ ["GA"; "GA2"] ∧
            fst (print_results_table results out)
              = inl (KeyError (StrKey algo))) as Hmissing.
  { intros Hincomplete. unfold complete in Hincomplete.
    apply not_Forall_Exists in Hincomplete; [|apply _].
    apply Exists_exists in Hincomplete as ([c entry] & Hin & Hmiss).
    simpl in Hmiss. rewrite print_results_table_unfold.
    edestruct (table_loop_missing results (merge_sort Z.le (fst <$> results)))
      as (algo & out' & Halgo & ->); [done| | |by exists algo].
    - intros k Hk. by rewrite merge_sort_Permutation in Hk.
    - exists c, entry. split; [|done].
      rewrite merge_sort_Permutation. apply list_elem_of_fmap.
      by exists (c, entry). }
  split; [|done]. split.
  - intros Hcomplete.
    destruct (print_results_table_complete results out Hnd Hcomplete)
      as (lines & -> & _). done.
  - intros Hok. destruct (decide (complete results)) as [|Hincomplete]; [done|].
    destruct (Hmissing Hincomplete) as (algo & _ & Hraise).
    rewrite Hok in Hraise. discriminate Hraise.
Qed.

Lemma print_results_table_raises_iff_incomplete_witness :
  NoDup (fst <$> [(0, <["GA" := example_result 0 17]> (∅ : gmap string RunResult))]) ∧
  fst (print_results_table
         [(0, <["GA" := example_result 0 17]> ∅)] [])
    = inl (KeyError (StrKey "GA2")).
Proof.
  assert (NoDup (fst <$> [(0, <["GA" := example_result 0 17]>
                                (∅ : gmap string RunResult))])) as Hnd
    by apply NoDup_singleton.
  split; [exact Hnd|].
  destruct (print_results_table_raises_iff_incomplete
              [(0, <["GA" := example_result 0 17]> ∅)] [] Hnd)
    as [_ Hraise].
  reflexivity.
Defined.

(** ** The coordinates of a tour *)

Lemma coordinate_step_found (city_coords : gmap Z (Q * Q)) xs ys c x y :
  city_coords !! (c + 1) = Some (x, y) →
  coordinate_step city_coords (xs, ys) c = inr (xs ++ [x], ys ++ [y]).
Proof. intros Hc. unfold coordinate_step. by rewrite Hc. Qed.

Lemma coordinate_step_missing (city_coords : gmap Z (Q * Q)) xs ys c :
  city_coords !! (c + 1) = None →
  coordinate_step city_coords (xs, ys) c = inl (KeyError (IntKey (c + 1))).
Proof. intros Hc. unfold coordinate_step. by rewrite Hc. Qed.

Lemma tour_coordinates_loop (city_coords : gmap Z (Q * Q)) tour : ∀ xs ys,
  Forall (λ c, is_Some (city_coords !! (c + 1))) tour →
  ∃ xs' ys',
    for_each (coordinate_step city_coords) tour (xs, ys)
      = inr (xs ++ xs', ys ++ ys') ∧
    length xs' = length tour ∧ length ys' = length tour.
Proof.
  induction tour as [|c tour IH]; intros xs ys Htour.
  - exists [], []. by rewrite !app_nil_r.
  - apply Forall_cons in Htour as [[[x y] Hc] Htour].
    rewrite for_each_cons, (coordinate_step_found _ _ _ _ _ _ Hc). simpl.
    destruct (IH (xs ++ [x]) (ys ++ [y]) Htour) as (xs' & ys' & -> & Hx & Hy).
    exists (x :: xs'), (y :: ys'). rewrite <- !app_assoc. simpl.
    by rewrite Hx, Hy.
Qed.

(** X12. The run of a start city in range, with an optimiser that returns
    a permutation (whatever fitness it returns with it), gives a tour that
    [plot_tour] can draw whenever [city_coords] knows the ids 1 .. N: no
    KeyError is raised, and there is one x and one y coordinate for every
    city of the tour. *)
Theorem returned_tour_has_coordinates (minimize : Minimize)
    (self : TSPSolver) (s pop_size n_gen : Z) (w w' : world) (r : RunResult) :
  returns_permutation minimize →
  0 <= s < Z.of_nat (length (solver_distance_matrix self)) →
  (∀ id, 1 <= id <= Z.of_nat (length (solver_distance_matrix self)) →
         is_Some (city_coords self !! id)) →
  solve_with_genetic_algorithm minimize self s pop_size n_gen w = (inr r, w') ∨
  solve_with_modified_ga minimize self s pop_size n_gen w = (inr r, w') →
  ∃ xs ys, tour_coordinates (city_coords self) (r_tour r) = inr (xs, ys) ∧
           length xs = length (r_tour r) ∧ length ys = length (r_tour r).
Proof.
  intros Hcontract Hs Hcoords Hrun.
  destruct (returned_tour_permutation _ _ _ _ _ _ _ _ Hcontract Hs Hrun)
    as (cs & -> & Hperm).
  unfold tour_coordinates.
  edestruct (tour_coordinates_loop (city_coords self) ([s] ++ cs ++ [s]) [] [])
    as (xs & ys & Hloop & Hx & Hy); [|by exists xs, ys].
  apply Forall_forall. intros c Hc. apply Hcoords.
  assert (c ∈ s :: cs) as Hc'.
  { rewrite !elem_of_app, !list_elem_of_singleton in Hc.
    rewrite elem_of_cons. tauto. }
  rewrite Hperm in Hc'. apply elem_of_seqZ in Hc'. lia.
Qed.

(** X13. The run of a start city outside [0 .. N-1] may return a tour
    (the start city is never checked), but [plot_tour] cannot draw it when
    [city_coords] knows only the ids 1 .. N: the very first city of the
    tour raises KeyError. *)
Theorem out_of_range_tour_has_no_coordinates (minimize : Minimize)
    (self : TSPSolver) (s pop_size n_gen : Z) (w w' : world) (r : RunResult) :
  s < 0 ∨ Z.of_nat (length (solver_distance_matrix self)) <= s →
  (∀ id, is_Some (city_coords self !! id) →
         1 <= id <= Z.of_nat (length (solver_distance_matrix self))) →
  solve_with_genetic_algorithm minimize self s pop_size n_gen w = (inr r, w') ∨
  solve_with_modified_ga minimize self s pop_size n_gen w = (inr r, w') →
  tour_coordinates (city_coords self) (r_tour r)
    = inl (KeyError (IntKey (s + 1))).
Proof.
  intros Hs Hcoords
    (pc & pm & seed & label & res & x & fitness & cs & d &
     _ & _ & _ & _ & _ & -> & _)%solve_inr.
  simpl r_tour. unfold tour_coordinates. rewrite for_each_cons.
  rewrite coordinate_step_missing; [done|].
  destruct (city_coords self !! (s + 1)) as [xy|] eqn:Hc; [|done].
  exfalso. specialize (Hcoords (s + 1) ltac:(by eexists)). lia.
Qed.

Lemma coords3_keys id : is_Some (coords3 !! id) ↔ 1 <= id <= 3.
Proof.
  unfold coords3. split.
  - intros [v Hv].
    rewrite !lookup_insert_Some, lookup_empty in Hv.
    destruct Hv as [[Heq _]|[_ Hv]]; [lia|].
    destruct Hv as [[Heq _]|[_ Hv]]; [lia|].
    destruct Hv as [[Heq _]|[_ Hv]]; [lia|done].
  - intros Hid. assert (id = 1 ∨ id = 2 ∨ id = 3) as [-> | [-> | ->]] by lia;
      by eexists.
Qed.

Lemma returned_tour_has_coordinates_witness :
  returns_permutation descending_optimiser ∧
  0 <= 1 < Z.of_nat (length (solver_distance_matrix (TSPSolver_init coords3 D3))) ∧
  ∃ r w' xs ys,
    solve_with_genetic_algorithm descending_optimiser (TSPSolver_init coords3 D3)
      1 10 5 w0 = (inr r, w') ∧
    tour_coordinates coords3 (r_tour r) = inr (xs, ys).
Proof.
  assert (0 <= 1 < Z.of_nat (length (solver_distance_matrix
                                       (TSPSolver_init coords3 D3)))) as Hs
    by (simpl; lia).
  split; [exact descending_optimiser_permutation|]. split; [exact Hs|].
  destruct (solve_with_genetic_algorithm descending_optimiser
              (TSPSolver_init coords3 D3) 1 10 5 w0) as [[e|r] w'] eqn:Hrun.
  - exfalso. vm_compute in Hrun. discriminate Hrun.
  - destruct (returned_tour_has_coordinates descending_optimiser
                (TSPSolver_init coords3 D3) 1 10 5 w0 w' r
                descending_optimiser_permutation Hs
                (λ id Hid, proj2 (coords3_keys id) Hid) (or_introl Hrun))
      as (xs & ys & Hxy & _).
    exists r, w', xs, ys. split; [reflexivity|exact Hxy].
Defined.

Lemma out_of_range_tour_has_no_coordinates_witness :
  (-1 < 0 ∨ Z.of_nat (length (solver_distance_matrix
                                (TSPSolver_init coords3 D3))) <= -1) ∧
  ∃ r w',
    solve_with_genetic_algorithm identity_optimiser (TSPSolver_init coords3 D3)
      (-1) 10 5 w0 = (inr r, w') ∧
    tour_coordinates coords3 (r_tour r) = inl (KeyError (IntKey 0)).
Proof.
  assert (-1 < 0 ∨ Z.of_nat (length (solver_distance_matrix
                                       (TSPSolver_init coords3 D3))) <= -1)
    as Hs by (left; lia).
  split; [exact Hs|].
  destruct (solve_with_genetic_algorithm identity_optimiser
              (TSPSolver_init coords3 D3) (-1) 10 5 w0) as [[e|r] w'] eqn:Hrun.
  - exfalso. vm_compute in Hrun. discriminate Hrun.
  - exists r, w'. split; [reflexivity|].
    exact (out_of_range_tour_has_no_coordinates identity_optimiser
             (TSPSolver_init coords3 D3) (-1) 10 5 w0 w' r Hs
             (λ id Hid, proj1 (coords3_keys id) Hid) (or_introl Hrun)).
Defined.

(** * The loaders *)

Section loader_facts.
Variable tokens : string → list string.
Variable int_of : string → option Z.
Variable float_of : string → option Q.
Variable np_array : list (list Q) → option matrix.

Lemma load_city_data_snoc lines line :
  load_city_data tokens int_of float_of (lines ++ [line]) =
  city_coords ← load_city_data tokens int_of float_of lines;
  city_line tokens int_of float_of city_coords line.
Proof. unfold load_city_data. by rewrite foldl_app. Qed.

Lemma city_line_None city_coords line :
  city_line tokens int_of float_of city_coords line = None ↔
  bad_city_line tokens int_of float_of line.
Proof.
  unfold city_line, bad_city_line.
  destruct (tokens line) as [|p0 [|p1 [|p2 [|p3 ps]]]] eqn:Htok; simpl.
  1-3,5: split; [done|]; by intros (? & ? & ? & [=] & _).
  split.
  - intros H. exists p0, p1, p2. split; [done|].
    destruct (int_of p0); [|by left]. destruct (float_of p1); [|by right; left].
    destruct (float_of p2); [done|by right; right].
  - intros (? & ? & ? & [= <- <- <-] & [-> | [-> | ->]]); simpl; [done| |].
    + by destruct (int_of p0).
    + destruct (int_of p0); [|done]. by destruct (float_of p1).
Qed.

Lemma city_line_Some city_coords line m :
  city_line tokens int_of float_of city_coords line = Some m →
  (∃ id xy, city_record tokens int_of float_of line id xy ∧
            m = <[id := xy]> city_coords) ∨
  ((∀ id xy, ¬ city_record tokens int_of float_of line id xy) ∧
   m = city_coords).
Proof.
  unfold city_line, city_record.
  destruct (tokens line) as [|p0 [|p1 [|p2 [|p3 ps]]]] eqn:Htok; simpl.
  1-3,5: intros [= <-]; right; split; [|done];
    by intros ? ? (? & ? & ? & [=] & _).
  destruct (int_of p0) as [id|] eqn:Hid; [|done].
  destruct (float_of p1) as [x|] eqn:Hx; [|done].
  destruct (float_of p2) as [y|] eqn:Hy; [|done].
  simpl. intros [= <-]. left. exists id, (x, y). split; [|done].
  by exists p0, p1, p2.
Qed.

Lemma city_record_functional line id xy id' xy' :
  city_record tokens int_of float_of line id xy →
  city_record tokens int_of float_of line id' xy' →
  id = id' ∧ xy = xy'.
Proof.
  intros (p0 & p1 & p2 & Htok & Hid & Hx & Hy)
         (q0 & q1 & q2 & Htok' & Hid' & Hx' & Hy').
  rewrite Htok in Htok'. injection Htok' as <- <- <-.
  destruct xy, xy'. simpl in *. split; congruence.
Qed.

(** X14. [load_city_data] raises ValueError exactly when the file has a
    line of three fields of which one does not parse; a line with any
    other number of fields never does, whatever it holds. *)
Theorem load_city_data_raises_iff_bad_line (lines : list string) :
  load_city_data tokens int_of float_of lines = None ↔
  Exists (bad_city_line tokens int_of float_of) lines.
Proof.
  induction lines as [|line lines IH] using rev_ind.
  - split; [done|]. by intros ?%Exists_nil.
  - rewrite load_city_data_snoc, Exists_app, Exists_cons, Exists_nil.
    destruct (load_city_data tokens int_of float_of lines) as [cc|]; simpl.
    + rewrite city_line_None. split; [by right; left|].
      intros [H|[H|[]]]; [|done]. apply IH in H. done.
    + split; [|done]. intros _. left. by apply IH.
Qed.

(** X15. When [load_city_data] returns, a city id has coordinates exactly
    when some line of three fields carries it, and its coordinates are
    those of the last such line; lines with another number of fields
    leave no trace. *)
Theorem load_city_data_last_record_wins (lines : list string)
    (m : gmap Z (Q * Q)) :
  load_city_data tokens int_of float_of lines = Some m →
  ∀ id xy,
    m !! id = Some xy ↔
    ∃ i line, lines !! i = Some line ∧
      city_record tokens int_of float_of line id xy ∧
      ∀ j line' xy', (i < j)%nat → lines !! j = Some line' →
        ¬ city_record tokens int_of float_of line' id xy'.
Proof.
  revert m. induction lines as [|line lines IH] using rev_ind; intros m.
  - intros [= <-] id xy. rewrite lookup_empty. split; [done|].
    by intros (i & l & Hl & _).
  - rewrite load_city_data_snoc.
    destruct (load_city_data tokens int_of float_of lines) as [m0|]; [|done].
    simpl. specialize (IH m0 eq_refl).
    intros [(id0 & xy0 & Hrec & ->)|[Hnorec ->]]%city_line_Some id xy.
    + destruct (decide (id0 = id)) as [->|Hne].
      * rewrite lookup_insert_eq. split.
        -- intros [= <-]. exists (length lines), line.
           rewrite list_lookup_middle by done. split; [done|]. split; [done|].
           intros j line' xy' Hj Hline'.
           apply lookup_lt_Some in Hline'. rewrite length_app in Hline'.
           simpl in Hline'. lia.
        -- intros (i & l & Hl & Hrec' & Hlater).
           destruct (decide (i = length lines)) as [->|Hi].
           ++ rewrite list_lookup_middle in Hl by done. injection Hl as <-.
              by destruct (city_record_functional _ _ _ _ _ Hrec Hrec') as [_ ->].
           ++ exfalso. apply (Hlater (length lines) line xy0); [|by rewrite list_lookup_middle|done].
              apply lookup_lt_Some in Hl. rewrite length_app in Hl.
              simpl in Hl. lia.
      * rewrite lookup_insert_ne by done. rewrite IH. split.
        -- intros (i & l & Hl & Hrec' & Hlater). exists i, l.
           split; [by apply lookup_app_l_Some|]. split; [done|].
           intros j line' xy' Hj Hline'.
           destruct (decide (j = length lines)) as [->|Hjne].
           ++ rewrite list_lookup_middle in Hline' by done.
              injection Hline' as <-. intros Hrec''.
              by destruct (city_record_functional _ _ _ _ _ Hrec Hrec'').
           ++ apply (Hlater j line' xy' Hj).
              rewrite lookup_app_l in Hline'; [done|].
              apply lookup_lt_Some in Hline'. rewrite length_app in Hline'.
              simpl in Hline'. lia.
        -- intros (i & l & Hl & Hrec' & Hlater).
           destruct (decide (i = length lines)) as [->|Hi].
           ++ rewrite list_lookup_middle in Hl by done. injection Hl as <-.
              by destruct (city_record_functional _ _ _ _ _ Hrec Hrec').
           ++ assert (i < length lines)%nat as Hlt.
              { apply lookup_lt_Some in Hl. rewrite length_app in Hl.
                simpl in Hl. lia. }
              exists i, l. rewrite lookup_app_l in Hl by done.
              split; [done|]. split; [done|].
              intros j line' xy' Hj Hline'. apply (Hlater j line' xy' Hj).
              by apply lookup_app_l_Some.
    + rewrite IH. split.
      * intros (i & l & Hl & Hrec' & Hlater). exists i, l.
        split; [by apply lookup_app_l_Some|]. split; [done|].
        intros j line' xy' Hj Hline'.
        destruct (decide (j = length lines)) as [->|Hjne].
        -- rewrite list_lookup_middle in Hline' by done.
           injection Hline' as <-. apply Hnorec.
        -- apply (Hlater j line' xy' Hj).
           rewrite lookup_app_l in Hline'; [done|].
           apply lookup_lt_Some in Hline'. rewrite length_app in Hline'.
           simpl in Hline'. lia.
      * intros (i & l & Hl & Hrec' & Hlater).
        destruct (decide (i = length lines)) as [->|Hi].
        -- rewrite list_lookup_middle in Hl by done. injection Hl as <-.
           by apply Hnorec in Hrec'.
        -- assert (i < length lines)%nat as Hlt.
           { apply lookup_lt_Some in Hl. rewrite length_app in Hl.
             simpl in Hl. lia. }
           exists i, l. rewrite lookup_app_l in Hl by done.
           split; [done|]. split; [done|].
           intros j line' xy' Hj Hline'. apply (Hlater j line' xy' Hj).
           by apply lookup_app_l_Some.
Qed.

Lemma foldl_matrix_line_None lines :
  foldl (λ acc line, distances ← acc;
                     matrix_line tokens float_of distances line)
        None lines = None.
Proof. induction lines; simpl; auto. Qed.

Lemma matrix_lines_from lines : ∀ distances,
  foldl (λ acc line, distances ← acc;
                     matrix_line tokens float_of distances line)
        (Some distances) lines
  = rows ← mapM (λ line, mapM float_of (tokens line)) lines;
    Some (distances ++ filter (λ row, row ≠ []) rows).
Proof.
  induction lines as [|line lines IH]; intros distances.
  - simpl. by rewrite app_nil_r.
  - assert (mapM (λ line, mapM float_of (tokens line)) (line :: lines)
            = row ← mapM float_of (tokens line);
              rows ← mapM (λ line, mapM float_of (tokens line)) lines;
              Some (row :: rows)) as -> by reflexivity.
    cbn [foldl].
    change (Some distances ≫= λ d, matrix_line tokens float_of d line)
      with (matrix_line tokens float_of distances line).
    unfold matrix_line.
    destruct (mapM float_of (tokens line)) as [[|d row]|]; simpl.
    + rewrite IH. destruct (mapM _ lines); simpl; [|done].
      by rewrite filter_cons_False by (by intros ?).
    + rewrite IH. destruct (mapM _ lines); simpl; [|done].
      rewrite filter_cons_True by done. by rewrite <- app_assoc.
    + apply foldl_matrix_line_None.
Qed.

(** X16. [load_distance_matrix] parses every field of every line (any
    field that does not parse raises ValueError), drops the lines without
    fields, keeps the other rows in the order of the file, and hands them
    to [np.array] without looking at their lengths. *)
Theorem load_distance_matrix_rows (lines : list string) :
  load_distance_matrix tokens float_of np_array lines =
  rows ← mapM (λ line, mapM float_of (tokens line)) lines;
  np_array (filter (λ row, row ≠ []) rows).
Proof.
  unfold load_distance_matrix. rewrite matrix_lines_from.
  by destruct (mapM _ lines).
Qed.

End loader_facts.

Lemma load_city_data_last_record_wins_witness :
  ∃ m, load_city_data (split_spaces "") decimal_int decimal_float
         example_city_lines = Some m ∧
       m !! 1 = Some (5, 6)%Q ∧ m !! 2 = Some (3, 4)%Q ∧ m !! 3 = None.
Proof.
  assert (load_city_data (split_spaces "") decimal_int decimal_float
            example_city_lines
          = Some (<[1 := (5, 6)%Q]> (<[2 := (3, 4)%Q]> (<[1 := (0, 0)%Q]> ∅))))
    as Hload by reflexivity.
  eexists. split; [exact Hload|].
  pose proof (load_city_data_last_record_wins (split_spaces "") decimal_int
                decimal_float example_city_lines _ Hload) as Hwins.
  split; [|split; [|reflexivity]].
  - apply Hwins. exists 3%nat, "1 5 6". split; [reflexivity|]. split.
    + by exists "1", "5", "6".
    + intros j line' xy' Hj Hline'. apply lookup_lt_Some in Hline'.
      simpl in Hline'. lia.
  - reflexivity.
Defined.

(** * From the runs to the report *)

Lemma NoDup_first_occurrences l : NoDup (first_occurrences l).
Proof.
  induction l as [|c l IH]; [constructor|]. simpl. apply NoDup_cons. split.
  - rewrite list_elem_of_filter. by intros [? _].
  - by apply NoDup_filter.
Qed.

Lemma elem_of_first_occurrences c l : c ∈ first_occurrences l → c ∈ l.
Proof.
  induction l as [|c' l IH]; [done|]. simpl.
  rewrite !elem_of_cons, list_elem_of_filter. intros [->|[_ H]]; auto.
Qed.

Lemma dict_items_keys start_cities (rm : gmap Z (gmap string RunResult)) :
  (∀ c, c ∈ start_cities → is_Some (rm !! c)) →
  fst <$> dict_items start_cities rm = first_occurrences start_cities.
Proof.
  intros Hrm. unfold dict_items.
  assert (∀ c, c ∈ first_occurrences start_cities → is_Some (rm !! c)) as H
    by (intros c Hc; by apply Hrm, elem_of_first_occurrences).
  induction (first_occurrences start_cities) as [|c l IH]; [done|].
  simpl. destruct (H c) as [entry ->]; [by left|]. simpl. f_equal.
  apply IH. intros c' Hc'. apply H. by right.
Qed.

(** X17. The results that [compare_algorithms] returns can always be
    tabulated: taken in insertion order, their keys are pairwise different
    and every entry holds a "GA" and a "GA2" result, so
    [print_results_table] raises no KeyError on them. *)
Theorem compare_algorithms_results_can_be_tabulated (minimize : Minimize)
    (self self' : TSPSolver) (start_cities : list Z) (pop_size n_gen : Z)
    (w w' : world) (rm : gmap Z (gmap string RunResult))
    (out : list report_line) :
  compare_algorithms minimize self start_cities pop_size n_gen w
    = (inr (self', rm), w') →
  NoDup (fst <$> dict_items start_cities rm) ∧
  complete (dict_items start_cities rm) ∧
  fst (print_results_table (dict_items start_cities rm) out) = inr ().
Proof.
  intros (_ & _ & _ & _ & _ & Hentries & _)%compare_algorithms_inr.
  assert (NoDup (fst <$> dict_items start_cities rm)) as Hnd.
  { rewrite dict_items_keys; [apply NoDup_first_occurrences|].
    intros c Hc. destruct (Hentries c Hc) as (entry & -> & _). by eexists. }
  assert (complete (dict_items start_cities rm)) as Hcomplete.
  { unfold complete, dict_items. apply Forall_forall.
    intros [c entry] (c' & Hc' & Hin)%list_elem_of_omap.
    apply elem_of_first_occurrences in Hc'.
    destruct (Hentries c' Hc') as (entry' & Hentry' & ga & ga2 & -> & _).
    rewrite Hentry' in Hin. simpl in Hin. injection Hin as <- <-. simpl.
    split; eexists.
    - rewrite lookup_insert_ne by done. apply lookup_insert_eq.
    - apply lookup_insert_eq. }
  split; [done|]. split; [done|].
  by destruct (print_results_table_complete _ out Hnd Hcomplete)
    as (lines & -> & _).
Qed.

Lemma compare_algorithms_results_can_be_tabulated_witness :
  ∃ self' rm w',
    compare_algorithms identity_optimiser (TSPSolver_init ∅ D3) [2; 0; 2]
      10 5 w0 = (inr (self', rm), w') ∧
    fst <$> dict_items [2; 0; 2] rm = [2; 0] ∧
    fst (print_results_table (dict_items [2; 0; 2] rm) []) = inr ().
Proof.
  destruct (compare_algorithms identity_optimiser (TSPSolver_init ∅ D3)
              [2; 0; 2] 10 5 w0) as [[e|[self' rm]] w'] eqn:Hrun.
  - exfalso. vm_compute in Hrun. discriminate Hrun.
  - exists self', rm, w'. split; [reflexivity|].
    destruct (compare_algorithms_results_can_be_tabulated identity_optimiser
                (TSPSolver_init ∅ D3) self' [2; 0; 2] 10 5 w0 w' rm [] Hrun)
      as (_ & _ & Hprint).
    split; [|exact Hprint].
    apply dict_items_keys. intros c Hc.
    destruct (compare_algorithms_inr _ _ _ _ _ _ _ _ _ Hrun)
      as (_ & _ & _ & _ & _ & Hentries & _).
    destruct (Hentries c Hc) as (entry & -> & _). by eexists.
Defined.
